(** * cpm_disk.py: CP/M disk images for the RetroShield Z80

    A shallow embedding of [cpm_disk.py] and the proofs of its
    directory / extent / block-allocation properties.

    Conventions of the embedding:
    - a Python [int] is a [Z]; a [bytes] or [bytearray] is a [list Z] of
      byte values; a [str] is the [list Z] of its code points;
    - an uncaught Python exception is the [Raise] result of the monad [res];
    - the two files of [add_file] (the image and the host file) are passed
      as their contents, and the image file as it is left on disk is part
      of the result. *)

From stdpp Require Import base option list list_numbers strings gmap.
From Stdlib Require Import ZArith Lia.

Local Open Scope Z_scope.

(** ** Python values and exceptions *)

Inductive exn : Type :=
  | IndexError
  | ValueError
  | OutOfFuel.  (* of the model only: a loop that ran out of fuel *)

Inductive res (A : Type) : Type :=
  | Ok (a : A)
  | Raise (e : exn).
Arguments Ok {A} a.
Arguments Raise {A} e.

#[global] Instance res_ret : MRet res := fun A a => Ok a.
#[global] Instance res_bind : MBind res := fun A B f m =>
  match m with
  | Ok a => f a
  | Raise e => Raise e
  end.

Definition is_ok {A} (m : res A) : bool :=
  match m with Ok _ => true | Raise _ => false end.

(** [for x in l: acc = f acc x], stopping at the first exception. *)
Fixpoint foldM {A B} (f : B → A → res B) (l : list A) (acc : B) : res B :=
  match l with
  | [] => Ok acc
  | x :: l' => acc' ← f acc x; foldM f l' acc'
  end.

(** [len(l)] *)
Definition len {A} (l : list A) : Z := Z.of_nat (length l).

(** [range(a, b)] *)
Definition range (a b : Z) : list Z := seqZ a (b - a).

(** A slice bound as Python normalises it: negative bounds count from the
    end, and every bound is clamped to [0 .. len(l)]. *)
Definition clamp {A} (l : list A) (i : Z) : Z :=
  if i <? 0 then Z.max 0 (i + len l) else Z.min i (len l).

(** [l[a:b]] *)
Definition slice {A} (l : list A) (a b : Z) : list A :=
  let a' := clamp l a in
  let b' := clamp l b in
  take (Z.to_nat (b' - a')) (drop (Z.to_nat a') l).

(** [l[a:b] = c] on a bytearray *)
Definition splice {A} (l : list A) (a b : Z) (c : list A) : list A :=
  let a' := clamp l a in
  let b' := Z.max a' (clamp l b) in
  take (Z.to_nat a') l ++ c ++ drop (Z.to_nat b') l.

(** [l[i]] *)
Definition index {A} (l : list A) (i : Z) : res A :=
  let j := if i <? 0 then i + len l else i in
  if j <? 0 then Raise IndexError
  else match l !! Z.to_nat j with
       | Some x => Ok x
       | None => Raise IndexError
       end.

(** [l[i] = v] on a bytearray: the index must exist and the value be a byte. *)
Definition set_item (l : list Z) (i v : Z) : res (list Z) :=
  let j := if i <? 0 then i + len l else i in
  if (j <? 0) || (len l <=? j) then Raise IndexError
  else if (v <? 0) || (256 <=? v) then Raise ValueError
  else Ok (<[Z.to_nat j := v]> l).

(** [bytes([v] * n)] *)
Definition repeat_byte (v n : Z) : list Z := replicate (Z.to_nat n) v.

(** A string literal as the list of its code points. *)
Definition pystr (s : string) : list Z :=
  (fun c => Z.of_N (Ascii.N_of_ascii c)) <$> String.list_ascii_of_string s.

(** [s.upper()], for the ASCII strings the tool is used with. *)
Definition upper (s : list Z) : list Z :=
  (fun c => if (97 <=? c) && (c <=? 122) then c - 32 else c) <$> s.

(** [s.rsplit(sep, 1)] when [sep] occurs in [s]: the parts before and after
    its last occurrence; [None] when it does not occur. *)
Fixpoint rsplit1 (sep : Z) (s : list Z) : option (list Z * list Z) :=
  match s with
  | [] => None
  | c :: t =>
      match rsplit1 sep t with
      | Some (a, b) => Some (c :: a, b)
      | None => if c =? sep then Some ([], t) else None
      end
  end.

(** [os.path.basename(p)] *)
Definition basename (p : list Z) : list Z :=
  match rsplit1 47 p with
  | Some (_, b) => b
  | None => p
  end.

(** [s.ljust(n)] *)
Definition ljust (s : list Z) (n : Z) : list Z :=
  s ++ replicate (Z.to_nat (n - len s)) 32.

(** [s.encode()], for ASCII strings: one byte per character. *)
Definition encode (s : list Z) : list Z := s.

(** [b.decode('ascii', errors='replace')]: a byte above 127 becomes U+FFFD. *)
Definition decode_ascii (b : list Z) : list Z :=
  (fun c => if 128 <=? c then 65533 else c) <$> b.

(** ** Disk geometry *)

Definition DISK_SIZE : Z := 256 * 1024.
Definition SECTOR_SIZE : Z := 128.
Definition SECTORS_PER_TRACK : Z := 26.
Definition TRACKS : Z := 77.
Definition RESERVED_TRACKS : Z := 2.
Definition BLOCK_SIZE : Z := 1024.
Definition DIR_ENTRIES : Z := 64.
Definition ENTRY_SIZE : Z := 32.

Definition DIR_OFFSET : Z := RESERVED_TRACKS * SECTORS_PER_TRACK * SECTOR_SIZE.
Definition DATA_OFFSET : Z := DIR_OFFSET + (DIR_ENTRIES * ENTRY_SIZE).
Definition TOTAL_BLOCKS : Z := (DISK_SIZE - DATA_OFFSET) / BLOCK_SIZE.

Definition EMPTY_ENTRY : Z := 229.  (* 0xE5 *)
Definition EOF_BYTE : Z := 26.      (* 0x1A *)

(** ** create_disk *)

(** The buffer that [create_disk] writes to the new image file. *)
Definition create_disk : res (list Z) :=
  let disk := repeat_byte 0 DISK_SIZE in
  foldM (fun disk i =>
           let offset := DIR_OFFSET + (i * ENTRY_SIZE) in
           set_item disk offset EMPTY_ENTRY)
        (range 0 DIR_ENTRIES) disk.

(** ** find_free_blocks *)

(** The inner loop of the directory scan: the nonzero block numbers of an
    occupied entry are added to [used]. *)
Definition entry_used (entry : list Z) (used : gset Z) : res (gset Z) :=
  e0 ← index entry 0;
  if negb (e0 =? EMPTY_ENTRY) && (e0 <=? 15) then
    foldM (fun used b =>
             block ← index entry (16 + b);
             Ok (if 0 <? block then {[block]} ∪ used else used))
          (range 0 16) used
  else Ok used.

(** The first loop of [find_free_blocks]: the set [used]. *)
Definition used_blocks (disk : list Z) : res (gset Z) :=
  foldM (fun used i =>
           let offset := DIR_OFFSET + (i * ENTRY_SIZE) in
           let entry := slice disk offset (offset + ENTRY_SIZE) in
           entry_used entry used)
        (range 0 DIR_ENTRIES) ∅.

(** The second loop: candidates in ascending order, with its [break]. *)
Fixpoint free_scan (used : gset Z) (cands : list Z) (count : Z)
    (free : list Z) : list Z :=
  match cands with
  | [] => free
  | b :: rest =>
      if bool_decide (b ∉ used) then
        let free := free ++ [b] in
        if count <=? len free then free
        else free_scan used rest count free
      else free_scan used rest count free
  end.

Definition find_free_blocks (disk : list Z) (count : Z) : res (list Z) :=
  used ← used_blocks disk;
  Ok (free_scan used (range 2 TOTAL_BLOCKS) count []).

(** ** find_free_dir_entry *)

Fixpoint first_empty (disk : list Z) (slots : list Z) : res (option Z) :=
  match slots with
  | [] => Ok None
  | i :: rest =>
      let offset := DIR_OFFSET + (i * ENTRY_SIZE) in
      s ← index disk offset;
      if s =? EMPTY_ENTRY then Ok (Some i) else first_empty disk rest
  end.

Definition find_free_dir_entry (disk : list Z) : res (option Z) :=
  first_empty disk (range 0 DIR_ENTRIES).

(** ** add_file *)

(** The extent number as the write path splits it over bytes 12 and 14 of
    an entry, and as the read paths put it together again. *)
Definition extent_low (extent : Z) : Z := Z.land extent 31.
Definition extent_high (extent : Z) : Z := Z.land (Z.shiftr extent 5) 63.
Definition extent_of (low high : Z) : Z := low + Z.shiftl high 5.

(** The chunk of [data] that goes to the [i]-th block, padded with 0x1A. *)
Definition block_chunk (data : list Z) (i : Z) : list Z :=
  let start := i * BLOCK_SIZE in
  let end_ := Z.min (start + BLOCK_SIZE) (len data) in
  let chunk := slice data start end_ in
  if len chunk <? BLOCK_SIZE
  then chunk ++ repeat_byte EOF_BYTE (BLOCK_SIZE - len chunk)
  else chunk.

(** The first loop of [add_file]: [for i, block in enumerate(free_blocks)],
    entered with [i] the index of the head of [blocks]. *)
Fixpoint write_blocks (disk data : list Z) (blocks : list Z) (i : Z)
    : list Z :=
  match blocks with
  | [] => disk
  | block :: rest =>
      let block_offset := DATA_OFFSET + (block - 2) * BLOCK_SIZE in
      let chunk := block_chunk data i in
      let disk := splice disk block_offset (block_offset + BLOCK_SIZE) chunk in
      write_blocks disk data rest (i + 1)
  end.

(** [for j, blk in enumerate(extent_blocks): entry[16 + j] = blk] *)
Fixpoint set_blocks (entry : list Z) (extent_blocks : list Z) (j : Z)
    : res (list Z) :=
  match extent_blocks with
  | [] => Ok entry
  | blk :: rest =>
      entry ← set_item entry (16 + j) blk;
      set_blocks entry rest (j + 1)
  end.

(** The directory entry built by one turn of the second loop. *)
Definition build_entry (name ext : list Z) (records : Z)
    (free_blocks : list Z) (extent block_idx : Z) : res (list Z) :=
  let entry := repeat_byte 0 ENTRY_SIZE in
  entry ← set_item entry 0 0;
  let entry := splice entry 1 9 (encode name) in
  let entry := splice entry 9 12 (encode ext) in
  entry ← set_item entry 12 (extent_low extent);
  entry ← set_item entry 13 0;
  entry ← set_item entry 14 (extent_high extent);
  let extent_blocks := slice free_blocks block_idx (block_idx + 16) in
  let records_in_extent := Z.min (records - (extent * 128)) 128 in
  entry ← set_item entry 15 records_in_extent;
  set_blocks entry extent_blocks 0.

(** The second loop of [add_file], [while block_idx < len(free_blocks)].
    The result is the buffer and whether the loop ran to its end ([false]:
    it returned at "No free directory entries"). Every turn moves
    [block_idx] on by 16, so [fuel] above the length of [free_blocks] is
    never used up. *)
Fixpoint dir_loop (fuel : nat) (disk name ext : list Z) (records : Z)
    (free_blocks : list Z) (extent block_idx : Z) : res (list Z * bool) :=
  if block_idx <? len free_blocks then
    match fuel with
    | O => Raise OutOfFuel
    | S fuel =>
        dir_idx ← find_free_dir_entry disk;
        match dir_idx with
        | None => Ok (disk, false)
        | Some dir_idx =>
            let offset := DIR_OFFSET + (dir_idx * ENTRY_SIZE) in
            entry ← build_entry name ext records free_blocks extent block_idx;
            let disk := splice disk offset (offset + ENTRY_SIZE) entry in
            dir_loop fuel disk name ext records free_blocks
                     (extent + 1) (block_idx + 16)
        end
    end
  else Ok (disk, true).

(** What [add_file] printed before it returned. *)
Inductive add_status : Type :=
  | Added               (* returns True *)
  | NotEnoughSpace      (* "Error: Not enough space", returns False *)
  | NoFreeDirEntries.   (* "Error: No free directory entries", returns False *)

(** The state when [add_file] returns: [mem] is its buffer [disk], [file]
    is the content of the image file. *)
Record add_out : Type := AddOut {
  ret : add_status;
  mem : list Z;
  file : list Z
}.

(** The name and extension fields of a file name, in CP/M 8.3 format. *)
Definition cpm_name (target : list Z) : list Z * list Z :=
  let '(name, ext) :=
    match rsplit1 46 target with
    | Some (name, ext) => (name, ext)
    | None => (target, [])
    end in
  (ljust (slice name 0 8) 8, ljust (slice ext 0 3) 3).

(** [records] and [blocks_needed] of [add_file]. *)
Definition records_of (data : list Z) : Z :=
  (len data + SECTOR_SIZE - 1) / SECTOR_SIZE.
Definition blocks_needed_of (data : list Z) : Z :=
  (len data + BLOCK_SIZE - 1) / BLOCK_SIZE.

Definition add_file (disk filename data : list Z) : res add_out :=
  let basename := upper (basename filename) in
  let '(name, ext) := cpm_name basename in
  let records := records_of data in
  let blocks_needed := blocks_needed_of data in
  free_blocks ← find_free_blocks disk blocks_needed;
  if len free_blocks <? blocks_needed then
    Ok (AddOut NotEnoughSpace disk disk)
  else
    let disk1 := write_blocks disk data free_blocks 0 in
    r ← dir_loop (S (length free_blocks)) disk1 name ext records
                 free_blocks 0 0;
    match r with
    | (disk2, true) => Ok (AddOut Added disk2 disk2)
    | (disk2, false) => Ok (AddOut NoFreeDirEntries disk2 disk)
    end.

(** ** extract_file *)

(** [[entry[16 + b] for b in range(16) if entry[16 + b] > 0]] *)
Definition entry_blocks (entry : list Z) : res (list Z) :=
  foldM (fun blocks b =>
           c ← index entry (16 + b);
           if 0 <? c then
             block ← index entry (16 + b);
             Ok (blocks ++ [block])
           else Ok blocks)
        (range 0 16) [].

(** The scan of the directory for the extents of a file. *)
Definition find_extents (disk tname text : list Z)
    : res (list (Z * Z * list Z)) :=
  foldM (fun extents i =>
           let offset := DIR_OFFSET + (i * ENTRY_SIZE) in
           let entry := slice disk offset (offset + ENTRY_SIZE) in
           e0 ← index entry 0;
           if (e0 =? EMPTY_ENTRY) || (15 <? e0) then Ok extents
           else
             let name := decode_ascii (slice entry 1 9) in
             let ext := decode_ascii (slice entry 9 12) in
             if bool_decide (name = tname) && bool_decide (ext = text) then
               e12 ← index entry 12;
               e14 ← index entry 14;
               let extent_num := extent_of e12 e14 in
               records ← index entry 15;
               blocks ← entry_blocks entry;
               Ok (extents ++ [(extent_num, records, blocks)])
             else Ok extents)
        (range 0 DIR_ENTRIES) [].

(** [extents.sort(key=lambda x: x[0])]: the sort is stable, so the result
    is that of a stable insertion sort on the extent number. *)
Fixpoint insert_extent (x : Z * Z * list Z) (l : list (Z * Z * list Z))
    : list (Z * Z * list Z) :=
  match l with
  | [] => [x]
  | y :: t =>
      if x.1.1 <=? y.1.1 then x :: y :: t else y :: insert_extent x t
  end.

Definition sort_extents (l : list (Z * Z * list Z)) : list (Z * Z * list Z) :=
  foldr insert_extent [] l.

(** The two nested loops that collect the bytes of all blocks. *)
Definition read_blocks (disk : list Z) (blocks : list Z) (data : list Z)
    : list Z :=
  foldl (fun data block =>
           let block_offset := DATA_OFFSET + (block - 2) * BLOCK_SIZE in
           data ++ slice disk block_offset (block_offset + BLOCK_SIZE))
        data blocks.

Definition read_extents (disk : list Z) (extents : list (Z * Z * list Z))
    : list Z :=
  foldl (fun data x => read_blocks disk x.2 data) [] extents.

(** [while data and data[-1] == 0x1A: data = data[:-1]], which ends after
    at most [len(data)] turns. *)
Fixpoint strip_loop (fuel : nat) (data : list Z) : res (list Z) :=
  match data with
  | [] => Ok data
  | _ :: _ =>
      c ← index data (-1);
      if c =? EOF_BYTE then
        match fuel with
        | O => Raise OutOfFuel
        | S fuel => strip_loop fuel (slice data 0 (-1))
        end
      else Ok data
  end.

(** The result is [None] at "File not found" (returns False), and the
    content written to the output file otherwise (returns True). *)
Definition extract_file (disk filename : list Z) : res (option (list Z)) :=
  let target := upper filename in
  let '(tname, text) := cpm_name target in
  extents ← find_extents disk tname text;
  match extents with
  | [] => Ok None
  | _ :: _ =>
      let extents := sort_extents extents in
      let data := read_extents disk extents in
      last_extent ← index extents (-1);
      let total_records := (len extents - 1) * 128 + last_extent.1.2 in
      let data := slice data 0 (total_records * SECTOR_SIZE) in
      data ← strip_loop (length data) data;
      Ok (Some data)
  end.

(** * The directory as the proofs see it *)

(** An image has the size of the fixed geometry. *)
Definition wf (disk : list Z) : Prop := len disk = DISK_SIZE.

(** The file name is ASCII, as [upper] and [encode] take it to be. *)
Definition ascii_str (s : list Z) : Prop := Forall (fun c => 0 ≤ c < 128) s.

(** The 32 bytes of directory slot [i]. *)
Definition entry_at (disk : list Z) (i : Z) : list Z :=
  slice disk (DIR_OFFSET + i * ENTRY_SIZE)
        (DIR_OFFSET + i * ENTRY_SIZE + ENTRY_SIZE).

(** The 1024 bytes of allocation block [b]. *)
Definition block_at (disk : list Z) (b : Z) : list Z :=
  slice disk (DATA_OFFSET + (b - 2) * BLOCK_SIZE)
        (DATA_OFFSET + (b - 2) * BLOCK_SIZE + BLOCK_SIZE).

(** The status byte of an entry, and whether the entry is occupied: the
    test of every directory scan of the tool. *)
Definition status (entry : list Z) : Z := default 0 (entry !! 0%nat).

Definition occupied (entry : list Z) : bool :=
  negb (status entry =? EMPTY_ENTRY) && (status entry <=? 15).

(** The block numbers an entry lists: the nonzero bytes 16 to 31. *)
Definition entry_refs (entry : list Z) : list Z :=
  filter (fun b => 0 < b) (drop 16 entry).

Definition slot_refs (disk : list Z) (i : Z) : list Z :=
  if occupied (entry_at disk i) then entry_refs (entry_at disk i) else [].

(** All block numbers referenced by the occupied entries, in slot order
    and with their repetitions. *)
Definition referenced (disk : list Z) : list Z :=
  concat (slot_refs disk <$> range 0 DIR_ENTRIES).

(** The free blocks of an image, in ascending order, and their number. *)
Definition free_list (disk : list Z) : list Z :=
  filter (fun b => b ∉ referenced disk) (range 2 TOTAL_BLOCKS).

Definition free_count (disk : list Z) : Z := len (free_list disk).

(** The directory slots with the empty mark, in ascending order. *)
Definition empty_slots (disk : list Z) : list Z :=
  filter (fun i => status (entry_at disk i) = EMPTY_ENTRY)
         (range 0 DIR_ENTRIES).

(** Offset [off] lies in directory slot [s], in allocation block [b]. *)
Definition in_slot (off s : Z) : Prop :=
  DIR_OFFSET + s * ENTRY_SIZE ≤ off < DIR_OFFSET + s * ENTRY_SIZE + ENTRY_SIZE.

Definition in_block (off b : Z) : Prop :=
  DATA_OFFSET + (b - 2) * BLOCK_SIZE ≤ off
  < DATA_OFFSET + (b - 2) * BLOCK_SIZE + BLOCK_SIZE.

(** The two writes of [add_file] into its buffer. *)
Definition put_entry (disk : list Z) (s : Z) (entry : list Z) : list Z :=
  splice disk (DIR_OFFSET + s * ENTRY_SIZE)
         (DIR_OFFSET + s * ENTRY_SIZE + ENTRY_SIZE) entry.

Definition put_block (disk : list Z) (b : Z) (chunk : list Z) : list Z :=
  splice disk (DATA_OFFSET + (b - 2) * BLOCK_SIZE)
         (DATA_OFFSET + (b - 2) * BLOCK_SIZE + BLOCK_SIZE) chunk.

(** The blocks of extent number [extent]: [free_blocks[block_idx:block_idx + 16]]
    at [block_idx = extent * 16]. *)
Definition extent_group (free_blocks : list Z) (extent : Z) : list Z :=
  slice free_blocks (extent * 16) (extent * 16 + 16).

(** The 32 bytes of the directory entry of extent number [extent]. *)
Definition the_entry (name ext : list Z) (records : Z) (free_blocks : list Z)
    (extent : Z) : list Z :=
  let group := extent_group free_blocks extent in
  [0] ++ name ++ ext
      ++ [extent_low extent; 0; extent_high extent;
          Z.min (records - extent * 128) 128]
      ++ group ++ replicate (16 - length group) 0.

(** The number of extents of a file of that many blocks. *)
Definition extent_count (free_blocks : list Z) : Z :=
  (len free_blocks + 15) / 16.

(** The entries go to the empty slots in turn; [false] when the slots run
    out before the entries do. *)
Fixpoint fill (disk : list Z) (slots : list Z) (entries : list (list Z))
    {struct entries} : list Z * bool :=
  match entries with
  | [] => (disk, true)
  | entry :: entries' =>
      match slots with
      | [] => (disk, false)
      | s :: slots' => fill (put_entry disk s entry) slots' entries'
      end
  end.

(** The value of a run that raised nothing. *)
Definition get_ok {A} (d : A) (m : res A) : A :=
  match m with Ok a => a | Raise _ => d end.

(** The blank image of [create_disk]. *)
Definition blank : list Z := get_ok [] create_disk.

(** What [add_file] returns on a well-formed image, without its loops. *)
Definition add_spec (disk filename data : list Z) : add_out :=
  let '(name, ext) := cpm_name (upper (basename filename)) in
  let free :=
    take (Z.to_nat (Z.max 1 (blocks_needed_of data))) (free_list disk) in
  if len free <? blocks_needed_of data then AddOut NotEnoughSpace disk disk
  else
    let disk1 := write_blocks disk data free 0 in
    let entries :=
      the_entry name ext (records_of data) free
        <$> range 0 (extent_count free) in
    match fill disk1 (empty_slots disk) entries with
    | (disk2, true) => AddOut Added disk2 disk2
    | (disk2, false) => AddOut NoFreeDirEntries disk2 disk
    end.

(** An image with one empty directory slot, slot 0: the other 63 slots of
    the blank image are marked as occupied by user 0. *)
Definition one_slot_disk : list Z :=
  foldl (fun disk i => <[Z.to_nat (DIR_OFFSET + i * ENTRY_SIZE) := 0]> disk)
        blank (range 1 DIR_ENTRIES).

(** Runs of [add_file] used as examples. A file of 16385 bytes takes 17
    blocks, a file of 250881 bytes takes 246. *)
Definition no_out : add_out := AddOut NotEnoughSpace [] [].

Definition file_17_blocks : list Z := repeat_byte 65 16385.
Definition file_246_blocks : list Z := repeat_byte 65 250881.

Definition out_one_slot : add_out :=
  get_ok no_out (add_file one_slot_disk (pystr "BIG.BIN") file_17_blocks).

(** The blocks [add_file] gets from [find_free_blocks], the directory slots
    it then claims, and the entries it writes there. *)
Definition alloc_blocks (disk data : list Z) : list Z :=
  take (Z.to_nat (Z.max 1 (blocks_needed_of data))) (free_list disk).

Definition claimed_slots (disk data : list Z) : list Z :=
  take (Z.to_nat (extent_count (alloc_blocks disk data))) (empty_slots disk).

Definition name_field (filename : list Z) : list Z :=
  (cpm_name (upper (basename filename))).1.

Definition ext_field (filename : list Z) : list Z :=
  (cpm_name (upper (basename filename))).2.

Definition file_entries (disk filename data : list Z) : list (list Z) :=
  the_entry (name_field filename) (ext_field filename) (records_of data)
            (alloc_blocks disk data)
    <$> range 0 (extent_count (alloc_blocks disk data)).

(** The status [add_file] returns on a well-formed image. *)
Definition expected_status (disk data : list Z) : add_status :=
  if free_count disk <? blocks_needed_of data then NotEnoughSpace
  else if extent_count (alloc_blocks disk data) <=? len (empty_slots disk)
       then Added
       else NoFreeDirEntries.

(** The status bytes of the slots in [slots] set to [v]. *)
Definition mark_slots (v : Z) (slots : list Z) (disk : list Z) : list Z :=
  foldl (fun disk i => <[Z.to_nat (DIR_OFFSET + i * ENTRY_SIZE) := v]> disk)
        disk slots.

(** A run of [add_file] that succeeds: a file of 2000 bytes on the blank
    image. *)
Definition hello_data : list Z := repeat_byte 72 2000.

Definition out_hello : add_out :=
  get_ok no_out (add_file blank (pystr "HELLO.COM") hello_data).

(** The images the tool produces: the one of [create_disk], and every
    image left by an [add_file] that returned [True] on such an image. *)
Inductive reachable : list Z → Prop :=
  | reach_created disk :
      create_disk = Ok disk → reachable disk
  | reach_added disk filename data out :
      reachable disk → ascii_str filename →
      add_file disk filename data = Ok out → ret out = Added →
      reachable (file out).

(** A byte string without its trailing 0x1A bytes. *)
Fixpoint strip_eof (data : list Z) : list Z :=
  match data with
  | [] => []
  | x :: rest =>
      match strip_eof rest with
      | [] => if x =? EOF_BYTE then [] else [x]
      | kept => x :: kept
      end
  end.

(** Byte [k] of an entry, 0 beyond its end. *)
Definition entry_byte (entry : list Z) (k : nat) : Z := default 0 (entry !! k).

(** The name and the extension of an entry, as [extract_file] decodes them. *)
Definition entry_name (entry : list Z) : list Z := decode_ascii (slice entry 1 9).
Definition entry_ext (entry : list Z) : list Z := decode_ascii (slice entry 9 12).

(** What the scan of [extract_file] takes from slot [i]: nothing unless the
    entry is occupied and carries the name and the extension looked for. *)
Definition slot_extent (disk tname text : list Z) (i : Z)
    : option (Z * Z * list Z) :=
  let entry := entry_at disk i in
  if occupied entry
     && bool_decide (entry_name entry = tname)
     && bool_decide (entry_ext entry = text)
  then Some (extent_of (entry_byte entry 12) (entry_byte entry 14),
             entry_byte entry 15, entry_refs entry)
  else None.

(** * Proofs *)

(** ** Lists as Python sequences *)

Lemma len_nonneg {A} (l : list A) : 0 ≤ len l.
Proof. unfold len. lia. Qed.

Lemma len_app {A} (l k : list A) : len (l ++ k) = len l + len k.
Proof. unfold len. rewrite length_app. lia. Qed.

Lemma len_repeat_byte v n : 0 ≤ n → len (repeat_byte v n) = n.
Proof. intros. unfold len, repeat_byte. rewrite length_replicate. lia. Qed.

Lemma len_cons {A} (x : A) (l : list A) : len (x :: l) = 1 + len l.
Proof. unfold len. simpl. lia. Qed.

Lemma clamp_nonneg {A} (l : list A) i : 0 ≤ i → clamp l i = Z.min i (len l).
Proof. intros. unfold clamp. destruct (Z.ltb_spec i 0); [lia | done]. Qed.

Lemma slice_take_drop {A} (l : list A) a b :
  0 ≤ a → 0 ≤ b →
  slice l a b = take (Z.to_nat (b - a)) (drop (Z.to_nat a) l).
Proof.
  intros Ha Hb. unfold slice. rewrite !clamp_nonneg by done.
  pose proof (len_nonneg l) as Hl. unfold len in *.
  destruct (Z.le_gt_cases (Z.of_nat (length l)) a) as [Hge | Hlt].
  - rewrite (Z.min_r a) by lia.
    rewrite !(drop_ge l) by lia. by rewrite !take_nil.
  - rewrite (Z.min_l a) by lia.
    destruct (Z.le_gt_cases b (Z.of_nat (length l))).
    + by rewrite Z.min_l.
    + rewrite Z.min_r by lia.
      rewrite !take_ge; [done | rewrite length_drop; lia ..].
Qed.

Lemma lookup_slice {A} (l : list A) a b (k : nat) :
  0 ≤ a → 0 ≤ b →
  slice l a b !! k =
    if decide (Z.of_nat k < b - a) then l !! (Z.to_nat a + k)%nat else None.
Proof.
  intros Ha Hb. rewrite slice_take_drop by done. case_decide.
  - rewrite lookup_take_lt by lia. apply lookup_drop.
  - apply lookup_take_ge. lia.
Qed.

Lemma len_slice {A} (l : list A) a b :
  0 ≤ a → a ≤ b → b ≤ len l → len (slice l a b) = b - a.
Proof.
  intros Ha Hab Hb. rewrite slice_take_drop by lia. unfold len in *.
  rewrite length_take, length_drop. lia.
Qed.

Lemma slice_all {A} (l : list A) b : len l ≤ b → slice l 0 b = l.
Proof.
  intros Hb. pose proof (len_nonneg l). rewrite slice_take_drop by lia.
  simpl. rewrite drop_0. apply take_ge. unfold len in *. lia.
Qed.

Lemma splice_take_drop {A} (l : list A) a b c :
  0 ≤ a → a ≤ b → b ≤ len l →
  splice l a b c = take (Z.to_nat a) l ++ c ++ drop (Z.to_nat b) l.
Proof.
  intros Ha Hab Hb. unfold splice. rewrite !clamp_nonneg by lia.
  by rewrite (Z.min_l a), (Z.min_l b), Z.max_r by lia.
Qed.

Lemma len_splice {A} (l : list A) a b c :
  0 ≤ a → a ≤ b → b ≤ len l → len c = b - a → len (splice l a b c) = len l.
Proof.
  intros Ha Hab Hb Hc. rewrite splice_take_drop by done. unfold len in *.
  rewrite !length_app, length_take, length_drop. lia.
Qed.

Lemma lookup_splice {A} (l : list A) a b c (k : nat) :
  0 ≤ a → a ≤ b → b ≤ len l → len c = b - a →
  splice l a b c !! k =
    if decide (a ≤ Z.of_nat k < b) then c !! (k - Z.to_nat a)%nat else l !! k.
Proof.
  intros Ha Hab Hb Hc. rewrite splice_take_drop by done. unfold len in *.
  assert (length (take (Z.to_nat a) l) = Z.to_nat a) as Ht
    by (rewrite length_take; lia).
  destruct (decide (Z.of_nat k < a)) as [Hk | Hk].
  - rewrite lookup_app_l by lia. rewrite lookup_take_lt by lia.
    case_decide; [lia | done].
  - rewrite lookup_app_r by lia. rewrite Ht.
    destruct (decide (Z.of_nat k < b)) as [Hk' | Hk'].
    + rewrite lookup_app_l by lia. case_decide; [done | lia].
    + rewrite lookup_app_r by lia. rewrite lookup_drop.
      case_decide; [lia |]. f_equal. lia.
Qed.

Lemma index_lookup {A} (l : list A) i x :
  0 ≤ i → l !! Z.to_nat i = Some x → index l i = Ok x.
Proof.
  intros Hi Hx. unfold index.
  assert ((i <? 0) = false) as E by lia. rewrite E. cbv zeta. by rewrite E, Hx.
Qed.

Lemma index_Ok_inv {A} (l : list A) i x :
  0 ≤ i → index l i = Ok x → l !! Z.to_nat i = Some x.
Proof.
  intros Hi. unfold index.
  assert ((i <? 0) = false) as E by lia. rewrite E. cbv zeta. rewrite E.
  destruct (l !! Z.to_nat i); intros Heq; [by inversion Heq | discriminate].
Qed.

Lemma set_item_Ok l i v :
  0 ≤ i → i < len l → 0 ≤ v → v < 256 →
  set_item l i v = Ok (<[Z.to_nat i := v]> l).
Proof.
  intros. unfold set_item.
  assert ((i <? 0) = false) as -> by lia. cbv zeta.
  assert ((i <? 0) = false) as -> by lia.
  assert ((len l <=? i) = false) as -> by lia.
  assert ((v <? 0) = false) as -> by lia.
  by assert ((256 <=? v) = false) as -> by lia.
Qed.

Lemma lookup_range a b (k : nat) :
  Z.of_nat k < b - a → range a b !! k = Some (a + Z.of_nat k).
Proof. intros. unfold range. apply lookup_seqZ. lia. Qed.

Lemma elem_of_range a b x : x ∈ range a b ↔ a ≤ x < b.
Proof. unfold range. rewrite elem_of_seqZ. lia. Qed.

Lemma range_cons a b : a < b → range a b = a :: range (a + 1) b.
Proof.
  intros. unfold range. rewrite seqZ_cons by lia.
  f_equal. f_equal; lia.
Qed.

Lemma range_nil a b : b ≤ a → range a b = [].
Proof.
  intros. unfold range, seqZ. by replace (Z.to_nat (b - a)) with 0%nat by lia.
Qed.

Lemma range_split a m b : a ≤ m → m ≤ b → range a b = range a m ++ range m b.
Proof.
  intros. unfold range.
  replace (b - a) with ((m - a) + (b - m)) by lia.
  rewrite seqZ_app by lia. do 2 f_equal; lia.
Qed.

(** A loop invariant for [foldM]: [P i acc] holds before the turn on the
    [i]-th element. *)
Lemma foldM_inv {A B} (f : B → A → res B) (P : nat → B → Prop) l acc :
  P 0%nat acc →
  (∀ i x b, l !! i = Some x → P i b → ∃ b', f b x = Ok b' ∧ P (S i) b') →
  ∃ b', foldM f l acc = Ok b' ∧ P (length l) b'.
Proof.
  revert P acc. induction l as [| x l IH]; intros P acc H0 Hstep; simpl.
  - eauto.
  - destruct (Hstep 0%nat x acc eq_refl H0) as (b1 & -> & H1). simpl.
    apply (IH (fun i => P (S i))); [done |].
    intros i y b Hy. apply (Hstep (S i)). done.
Qed.

Lemma bind_Ok {A B} (a : A) (f : A → res B) : (Ok a ≫= f) = f a.
Proof. reflexivity. Qed.

Lemma Ok_inj {A} (a b : A) : Ok a = Ok b → a = b.
Proof. by intros [= ->]. Qed.

(** Runs the [foldM] of the goal under the invariant [P]. *)
Ltac fold_inv P :=
  match goal with
  | |- context [foldM ?f ?l ?a] =>
      let H := fresh "Hfold" in
      let acc := fresh "acc" in
      destruct (foldM_inv f P l a) as (acc & H & ?);
      [ | | rewrite H; clear H ]
  end.

(** ** The geometry (C7) *)

(** C7: the derived layout constants of the fixed 262,144-byte geometry are
    [DIR_OFFSET = 6656], [DATA_OFFSET = 8704] and [TOTAL_BLOCKS = 247]. *)
Theorem layout_constants :
  DISK_SIZE = 262144 ∧ DIR_OFFSET = 6656 ∧ DATA_OFFSET = 8704 ∧
  TOTAL_BLOCKS = 247.
Proof. by vm_compute. Qed.

Lemma DIR_OFFSET_eq : DIR_OFFSET = 6656.
Proof. reflexivity. Qed.
Lemma DATA_OFFSET_eq : DATA_OFFSET = 8704.
Proof. reflexivity. Qed.
Lemma TOTAL_BLOCKS_eq : TOTAL_BLOCKS = 247.
Proof. reflexivity. Qed.
Lemma DISK_SIZE_eq : DISK_SIZE = 262144.
Proof. reflexivity. Qed.

(** Replaces the constants of the geometry by their values. *)
Ltac geom :=
  rewrite ?DIR_OFFSET_eq, ?DATA_OFFSET_eq, ?TOTAL_BLOCKS_eq, ?DISK_SIZE_eq in *;
  change ENTRY_SIZE with 32 in *; change BLOCK_SIZE with 1024 in *;
  change DIR_ENTRIES with 64 in *; change SECTOR_SIZE with 128 in *;
  change EMPTY_ENTRY with 229 in *; change EOF_BYTE with 26 in *.

(** ** The extent number (C6) *)

(** C6, as the code has it: for every extent number [e] of 11 bits
    ([0 <= e < 2048]), the fields written by the write path
    ([e & 0x1F] and [(e >> 5) & 0x3F]) decode to [e] again. *)
Theorem extent_roundtrip e :
  0 ≤ e < 2048 → extent_of (extent_low e) (extent_high e) = e.
Proof.
  intros He. unfold extent_of, extent_low, extent_high.
  change 31 with (Z.ones 5). change 63 with (Z.ones 6).
  rewrite !Z.land_ones, Z.shiftr_div_pow2, Z.shiftl_mul_pow2 by lia.
  change (2 ^ 5) with 32. change (2 ^ 6) with 64.
  rewrite (Z.mod_small (e / 32) 64).
  - pose proof (Z.div_mod e 32). lia.
  - split; [apply Z.div_pos; lia | apply Z.div_lt_upper_bound; lia].
Qed.

Lemma extent_roundtrip_witness :
  0 ≤ 1234 < 2048 ∧ extent_of (extent_low 1234) (extent_high 1234) = 1234.
Proof. split; [lia | apply (extent_roundtrip 1234); lia]. Defined.

(** C6 as stated fails: the high field keeps 6 bits only, so the extent
    number 2048 of 13 bits is written as 0. *)
Lemma extent_roundtrip_13bit_fails :
  ¬ (∀ e, 0 ≤ e < 8192 → extent_of (extent_low e) (extent_high e) = e).
Proof.
  intros H. specialize (H 2048 ltac:(lia)). vm_compute in H. discriminate.
Qed.

(** ** Directory slots of a well-formed image *)

Lemma length_entry_at disk i :
  wf disk → 0 ≤ i < DIR_ENTRIES → length (entry_at disk i) = 32%nat.
Proof.
  unfold wf. intros Hwf Hi. geom.
  assert (len (entry_at disk i) = 32) as H; [| unfold len in H; lia].
  unfold entry_at. geom. rewrite len_slice; lia.
Qed.

Lemma lookup_entry_at disk i (k : nat) :
  0 ≤ i → (k < 32)%nat →
  entry_at disk i !! k = disk !! Z.to_nat (DIR_OFFSET + i * ENTRY_SIZE + Z.of_nat k).
Proof.
  intros Hi Hk. unfold entry_at. geom. rewrite lookup_slice by lia.
  case_decide; [| lia]. f_equal. lia.
Qed.

Lemma status_entry_at disk i :
  0 ≤ i → status (entry_at disk i) =
          default 0 (disk !! Z.to_nat (DIR_OFFSET + i * ENTRY_SIZE)).
Proof.
  intros Hi. unfold status. rewrite lookup_entry_at by lia.
  do 2 f_equal. lia.
Qed.

Lemma index_entry (entry : list Z) (k : nat) :
  length entry = 32%nat → (k < 32)%nat →
  ∃ x, entry !! k = Some x ∧ index entry (Z.of_nat k) = Ok x.
Proof.
  intros Hlen Hk. destruct (lookup_lt_is_Some_2 entry k) as [x Hx]; [lia |].
  exists x. split; [done |]. apply index_lookup; [lia |].
  by rewrite Nat2Z.id.
Qed.

Lemma index_status (entry : list Z) :
  length entry = 32%nat → index entry 0 = Ok (status entry).
Proof.
  intros Hlen. destruct (index_entry entry 0 Hlen) as (x & Hx & Hi); [lia |].
  unfold status. by rewrite Hx.
Qed.

(** ** The scan for used blocks *)

Lemma entry_used_eq entry used :
  length entry = 32%nat →
  entry_used entry used =
    Ok (if occupied entry then list_to_set (entry_refs entry) ∪ used else used).
Proof.
  intros Hlen. unfold entry_used. rewrite (index_status _ Hlen), bind_Ok.
  fold (occupied entry). destruct (occupied entry); [| done].
  fold_inv (fun (k : nat) (acc : gset Z) =>
       acc = list_to_set (filter (fun b => 0 < b) (take k (drop 16 entry)))
             ∪ used).
  - rewrite take_0. set_solver.
  - intros k x acc Hx ->.
    apply lookup_lt_Some in Hx as Hk.
    unfold range in Hk. rewrite length_seqZ in Hk.
    rewrite lookup_range in Hx by lia. injection Hx as <-.
    destruct (index_entry entry (16 + k) Hlen) as (blk & Hblk & Hidx); [lia |].
    replace (16 + (0 + Z.of_nat k)) with (Z.of_nat (16 + k)) by lia.
    rewrite Hidx, bind_Ok. eexists. split; [done |].
    rewrite (take_S_r _ _ blk) by (by rewrite lookup_drop).
    rewrite filter_app, list_to_set_app_L, filter_cons, filter_nil.
    destruct (Z.ltb_spec 0 blk); case_decide; try lia; set_solver.
  - subst acc. unfold range. rewrite length_seqZ. f_equal. unfold entry_refs.
    rewrite take_ge; [done |]. rewrite length_drop. lia.
Qed.

Lemma used_blocks_eq disk :
  wf disk → used_blocks disk = Ok (list_to_set (referenced disk)).
Proof.
  intros Hwf. unfold used_blocks.
  fold_inv (fun (k : nat) (acc : gset Z) =>
       acc = list_to_set (concat (slot_refs disk <$> take k (range 0 DIR_ENTRIES)))).
  - by rewrite take_0.
  - intros k x acc Hx ->.
    apply lookup_lt_Some in Hx as Hk.
    unfold range in Hk. rewrite length_seqZ in Hk.
    rewrite (take_S_r _ _ x) by done.
    rewrite lookup_range in Hx by lia. injection Hx as <-.
    cbv zeta. fold (entry_at disk (0 + Z.of_nat k)).
    rewrite entry_used_eq by (apply length_entry_at; [done | geom; lia]).
    eexists. split; [done |].
    rewrite fmap_app, concat_app, list_to_set_app_L. simpl.
    rewrite app_nil_r. unfold slot_refs.
    destruct (occupied _); set_solver.
  - subst acc. by rewrite take_ge by done.
Qed.

(** ** The scan for free blocks *)

Lemma free_scan_eq used cands count free :
  free_scan used cands count free =
    free ++ take (Z.to_nat (Z.max 1 (count - len free)))
                 (filter (fun b => b ∉ used) cands).
Proof.
  revert free. induction cands as [| b rest IH]; intros free; simpl.
  - by rewrite filter_nil, take_nil, app_nil_r.
  - rewrite filter_cons. destruct (decide (b ∉ used)) as [Hb | Hb].
    + rewrite bool_decide_true by done.
      pose proof (len_nonneg free). rewrite len_app, len_cons.
      change (len []) with 0.
      destruct (Z.leb_spec count (len free + (1 + 0))).
      * replace (Z.to_nat (Z.max 1 (count - len free))) with 1%nat by lia.
        simpl. by rewrite take_0.
      * rewrite IH, <- app_assoc, len_app, len_cons. simpl.
        change (len []) with 0. f_equal.
        replace (Z.to_nat (Z.max 1 (count - len free)))
          with (S (Z.to_nat (Z.max 1 (count - (len free + (1 + 0))))))
          by lia.
        done.
    + rewrite bool_decide_false by done. apply IH.
Qed.

Lemma find_free_blocks_eq disk count :
  wf disk →
  find_free_blocks disk count =
    Ok (take (Z.to_nat (Z.max 1 count)) (free_list disk)).
Proof.
  intros Hwf. unfold find_free_blocks. rewrite used_blocks_eq by done.
  rewrite bind_Ok, free_scan_eq, app_nil_l. change (len []) with 0.
  rewrite Z.sub_0_r. do 2 f_equal. unfold free_list.
  apply list_filter_iff. intros b. by rewrite elem_of_list_to_set.
Qed.

Lemma free_list_range disk b :
  b ∈ free_list disk → 2 ≤ b ≤ TOTAL_BLOCKS - 1 ∧ b ∉ referenced disk.
Proof.
  unfold free_list. rewrite list_elem_of_filter, elem_of_range.
  intros [? ?]. split; [lia | done].
Qed.

Lemma NoDup_free_list disk : NoDup (free_list disk).
Proof. apply NoDup_filter, NoDup_seqZ. Qed.

(** C10: every block number returned by [find_free_blocks] lies between 2
    and [TOTAL_BLOCKS - 1] = 246, so it is a byte: storing it in byte
    [16 + j] of a directory entry raises no [ValueError] and keeps the
    value as it is. *)
Theorem find_free_blocks_range disk count free :
  find_free_blocks disk count = Ok free →
  Forall (fun b =>
            2 ≤ b ≤ TOTAL_BLOCKS - 1 ∧ TOTAL_BLOCKS - 1 = 246 ∧
            ∀ entry j, 0 ≤ j → 16 + j < len entry →
              set_item entry (16 + j) b = Ok (<[Z.to_nat (16 + j) := b]> entry))
         free.
Proof.
  unfold find_free_blocks.
  destruct (used_blocks disk) as [used |]; [| intros [=]].
  rewrite bind_Ok. intros <-%Ok_inj. rewrite free_scan_eq, app_nil_l.
  apply Forall_forall. intros b Hb.
  apply elem_of_take in Hb as (k & Hb & _).
  apply list_elem_of_lookup_2 in Hb.
  apply list_elem_of_filter in Hb as [_ Hb].
  apply elem_of_range in Hb. geom.
  repeat split; try lia.
  intros entry j Hj Hlt. apply set_item_Ok; lia.
Qed.

(** ** Writes into the buffer *)

Lemma slice_splice_same {A} (l : list A) a b c :
  0 ≤ a → a ≤ b → b ≤ len l → len c = b - a →
  slice (splice l a b c) a b = c.
Proof.
  intros Ha Hab Hb Hc. apply list_eq. intros k.
  rewrite lookup_slice by lia. case_decide as Hk.
  - rewrite lookup_splice by done. case_decide; [| lia]. f_equal. lia.
  - symmetry. apply lookup_ge_None. unfold len in *. lia.
Qed.

Lemma slice_splice_other {A} (l : list A) a b c x y :
  0 ≤ a → a ≤ b → b ≤ len l → len c = b - a →
  0 ≤ x → 0 ≤ y → y ≤ a ∨ b ≤ x →
  slice (splice l a b c) x y = slice l x y.
Proof.
  intros Ha Hab Hb Hc Hx Hy Hdis. apply list_eq. intros k.
  rewrite !lookup_slice by lia. case_decide as Hk; [| done].
  rewrite lookup_splice by done. case_decide; [lia | done].
Qed.

Section put_entry.
Context (disk : list Z) (s : Z) (entry : list Z).
Hypothesis Hwf : wf disk.
Hypothesis Hs : 0 ≤ s < DIR_ENTRIES.
Hypothesis Hlen : length entry = 32%nat.

Lemma wf_put_entry : wf (put_entry disk s entry).
Proof.
  unfold wf, put_entry in *. geom.
  rewrite len_splice; unfold len in *; lia.
Qed.

Lemma entry_at_put_entry : entry_at (put_entry disk s entry) s = entry.
Proof.
  unfold wf, entry_at, put_entry in *. geom.
  apply slice_splice_same; unfold len in *; lia.
Qed.

Lemma entry_at_put_entry_ne i :
  0 ≤ i → i ≠ s → entry_at (put_entry disk s entry) i = entry_at disk i.
Proof.
  intros Hi Hne. unfold wf, entry_at, put_entry in *. geom.
  apply slice_splice_other; unfold len in *; lia.
Qed.

Lemma block_at_put_entry b :
  2 ≤ b → block_at (put_entry disk s entry) b = block_at disk b.
Proof.
  intros Hb. unfold wf, block_at, put_entry in *. geom.
  apply slice_splice_other; unfold len in *; lia.
Qed.

Lemma lookup_put_entry (k : nat) :
  ¬ in_slot (Z.of_nat k) s → put_entry disk s entry !! k = disk !! k.
Proof.
  intros Hk. unfold wf, in_slot, put_entry in *. geom.
  rewrite lookup_splice by (unfold len in *; lia).
  case_decide; [lia | done].
Qed.
End put_entry.

Section put_block.
Context (disk : list Z) (b : Z) (chunk : list Z).
Hypothesis Hwf : wf disk.
Hypothesis Hb : 2 ≤ b ≤ TOTAL_BLOCKS - 1.
Hypothesis Hlen : len chunk = BLOCK_SIZE.

Lemma wf_put_block : wf (put_block disk b chunk).
Proof.
  unfold wf, put_block in *. geom. rewrite len_splice; lia.
Qed.

Lemma block_at_put_block : block_at (put_block disk b chunk) b = chunk.
Proof.
  unfold wf, block_at, put_block in *. geom.
  apply slice_splice_same; lia.
Qed.

Lemma block_at_put_block_ne b' :
  2 ≤ b' → b' ≠ b → block_at (put_block disk b chunk) b' = block_at disk b'.
Proof.
  intros Hb' Hne. unfold wf, block_at, put_block in *. geom.
  apply slice_splice_other; lia.
Qed.

Lemma entry_at_put_block i :
  0 ≤ i < DIR_ENTRIES →
  entry_at (put_block disk b chunk) i = entry_at disk i.
Proof.
  intros Hi. unfold wf, entry_at, put_block in *. geom.
  apply slice_splice_other; lia.
Qed.

Lemma lookup_put_block (k : nat) :
  ¬ in_block (Z.of_nat k) b → put_block disk b chunk !! k = disk !! k.
Proof.
  intros Hk. unfold wf, in_block, put_block in *. geom.
  rewrite lookup_splice by lia. case_decide; [lia | done].
Qed.
End put_block.

(** ** The data blocks written by add_file *)

Lemma len_block_chunk data i : 0 ≤ i → len (block_chunk data i) = BLOCK_SIZE.
Proof.
  intros Hi. unfold block_chunk. geom. cbv zeta.
  pose proof (len_nonneg data) as Hd.
  set (chunk := slice data (i * 1024) (Z.min (i * 1024 + 1024) (len data))).
  assert (0 ≤ len chunk ≤ 1024) as Hc.
  { subst chunk. rewrite slice_take_drop by lia. unfold len in *.
    rewrite length_take, length_drop. lia. }
  destruct (Z.ltb_spec (len chunk) 1024).
  - rewrite len_app, len_repeat_byte; lia.
  - lia.
Qed.

Lemma write_blocks_spec data blocks : ∀ disk i,
  wf disk → 0 ≤ i →
  Forall (fun b => 2 ≤ b ≤ TOTAL_BLOCKS - 1) blocks → NoDup blocks →
  let disk' := write_blocks disk data blocks i in
  wf disk' ∧
  (∀ s, 0 ≤ s < DIR_ENTRIES → entry_at disk' s = entry_at disk s) ∧
  (∀ (k : nat) b, blocks !! k = Some b →
     block_at disk' b = block_chunk data (i + Z.of_nat k)) ∧
  (∀ b, 2 ≤ b → b ∉ blocks → block_at disk' b = block_at disk b) ∧
  (∀ k : nat, (∀ b, b ∈ blocks → ¬ in_block (Z.of_nat k) b) →
     disk' !! k = disk !! k).
Proof.
  induction blocks as [| b rest IH]; intros disk i Hwf Hi Hrange Hnd; simpl.
  - by repeat split.
  - apply Forall_cons in Hrange as [Hb Hrest].
    apply NoDup_cons in Hnd as [Hnotin Hnd].
    fold (put_block disk b (block_chunk data i)).
    pose proof (len_block_chunk data i Hi) as Hlen.
    pose proof (wf_put_block disk b _ Hwf Hb Hlen) as Hwf1.
    destruct (IH (put_block disk b (block_chunk data i)) (i + 1)
                 Hwf1 ltac:(lia) Hrest Hnd) as (Hwf' & Hdir & Hblk & Hoth & Hfr).
    repeat split.
    + done.
    + intros s Hs. rewrite Hdir by done. by apply entry_at_put_block.
    + intros [| k] b' Hk; simpl in Hk.
      * injection Hk as <-. rewrite Hoth by (done || lia).
        rewrite Z.add_0_r. by apply block_at_put_block.
      * rewrite (Hblk k b' Hk). f_equal. lia.
    + intros b' Hb' Hnot. apply not_elem_of_cons in Hnot as [Hne Hnot].
      rewrite Hoth by done. by apply block_at_put_block_ne.
    + intros k Hk. rewrite Hfr.
      * apply lookup_put_block; try done. apply Hk. by left.
      * intros b' Hb'. apply Hk. by right.
Qed.

(** ** The directory entry of an extent *)

Lemma Forall_slice {A} (P : A → Prop) (l : list A) a b :
  0 ≤ a → 0 ≤ b → Forall P l → Forall P (slice l a b).
Proof.
  intros Ha Hb Hl. rewrite slice_take_drop by done.
  by apply Forall_take, Forall_drop.
Qed.

Lemma length_extent_group free e :
  0 ≤ e → (length (extent_group free e) ≤ 16)%nat.
Proof.
  intros He. unfold extent_group. rewrite slice_take_drop by lia.
  rewrite length_take. lia.
Qed.

Lemma set_blocks_eq group : ∀ entry j,
  0 ≤ j → 16 + j + len group ≤ len entry →
  Forall (fun b => 0 ≤ b < 256) group →
  set_blocks entry group j =
    Ok (take (Z.to_nat (16 + j)) entry ++ group
          ++ drop (Z.to_nat (16 + j + len group)) entry).
Proof.
  induction group as [| blk rest IH]; intros entry j Hj Hlen Hbytes; simpl.
  - change (len []) with 0. rewrite Z.add_0_r. by rewrite take_drop.
  - rewrite len_cons in Hlen. pose proof (len_nonneg rest) as Hrest.
    apply Forall_cons in Hbytes as [Hblk Hbytes].
    rewrite set_item_Ok by lia. rewrite bind_Ok.
    rewrite IH by (done || lia || (unfold len in *; rewrite length_insert; lia)).
    f_equal. set (n := Z.to_nat (16 + j)).
    replace (Z.to_nat (16 + (j + 1))) with (S n) by lia.
    rewrite (take_S_r _ n blk)
      by (apply list_lookup_insert_eq; unfold len in *; lia).
    rewrite take_insert_ge by lia.
    rewrite drop_insert_lt by (unfold len in *; lia).
    rewrite <- app_assoc, len_cons. simpl. do 3 f_equal. f_equal. lia.
Qed.

Section the_entry.
Context (name ext : list Z) (records : Z) (free : list Z) (extent : Z).
Hypothesis Hname : length name = 8%nat.
Hypothesis Hext : length ext = 3%nat.
Hypothesis Hextent : 0 ≤ extent.

Local Notation entry := (the_entry name ext records free extent).

Lemma length_the_entry : length entry = 32%nat.
Proof.
  unfold the_entry. cbv zeta.
  pose proof (length_extent_group free extent Hextent).
  rewrite !length_app, length_replicate. simpl. lia.
Qed.

Lemma status_the_entry : status entry = 0.
Proof. reflexivity. Qed.

Lemma occupied_the_entry : occupied entry = true.
Proof. reflexivity. Qed.

Lemma drop_16_the_entry :
  drop 16 entry =
    extent_group free extent
      ++ replicate (16 - length (extent_group free extent)) 0.
Proof.
  unfold the_entry. cbv zeta.
  destruct name as [| n1 [| n2 [| n3 [| n4 [| n5 [| n6 [| n7 [| n8 [| ? ?]]]]]]]]];
    try discriminate.
  destruct ext as [| e1 [| e2 [| e3 [| ? ?]]]]; try discriminate.
  reflexivity.
Qed.

Lemma take_16_the_entry :
  take 16 entry =
    [0] ++ name ++ ext
        ++ [extent_low extent; 0; extent_high extent;
            Z.min (records - extent * 128) 128].
Proof.
  unfold the_entry. cbv zeta.
  destruct name as [| n1 [| n2 [| n3 [| n4 [| n5 [| n6 [| n7 [| n8 [| ? ?]]]]]]]]];
    try discriminate.
  destruct ext as [| e1 [| e2 [| e3 [| ? ?]]]]; try discriminate.
  reflexivity.
Qed.

Lemma entry_refs_the_entry :
  Forall (fun b => 0 < b) free →
  entry_refs entry = extent_group free extent.
Proof.
  intros Hpos. unfold entry_refs. rewrite drop_16_the_entry.
  rewrite filter_app.
  assert (Forall (fun b => 0 < b) (extent_group free extent)) as Hg
    by (apply Forall_slice; (done || lia)).
  assert (∀ n, filter (fun b => 0 < b) (replicate n 0) = []) as ->.
  { induction n as [| n IH]; [done |]. simpl. rewrite filter_cons.
    case_decide; [lia | done]. }
  rewrite app_nil_r. clear -Hg.
  induction Hg as [| b l Hb Hl IH]; [done |].
  rewrite filter_cons. case_decide; [by f_equal | done].
Qed.

Lemma build_entry_eq :
  0 ≤ records - extent * 128 →
  Forall (fun b => 0 ≤ b < 256) free →
  build_entry name ext records free extent (extent * 16) = Ok entry.
Proof.
  intros Hrec Hbytes. unfold build_entry, the_entry. cbv zeta.
  fold (extent_group free extent).
  pose proof (length_extent_group free extent Hextent) as Hg.
  assert (0 ≤ extent_low extent < 256) as Hlo.
  { unfold extent_low. change 31 with (Z.ones 5).
    rewrite Z.land_ones by lia. pose proof (Z.mod_pos_bound extent (2 ^ 5)).
    lia. }
  assert (0 ≤ extent_high extent < 256) as Hhi.
  { unfold extent_high. change 63 with (Z.ones 6).
    rewrite Z.land_ones by lia.
    pose proof (Z.mod_pos_bound (Z.shiftr extent 5) (2 ^ 6)). lia. }
  set (lo := extent_low extent) in *. set (hi := extent_high extent) in *.
  set (rc := Z.min (records - extent * 128) 128).
  assert (0 ≤ rc < 256) as Hrc by lia. clearbody lo hi rc.
  destruct name as [| n1 [| n2 [| n3 [| n4 [| n5 [| n6 [| n7 [| n8 [| ? ?]]]]]]]]];
    try discriminate.
  destruct ext as [| e1 [| e2 [| e3 [| ? ?]]]]; try discriminate.
  change (set_item (repeat_byte 0 ENTRY_SIZE) 0 0)
    with (Ok (replicate 32 0)).
  rewrite bind_Ok.
  change (splice (splice (replicate 32 0) 1 9
                    (encode [n1; n2; n3; n4; n5; n6; n7; n8])) 9 12
                 (encode [e1; e2; e3]))
    with ([0; n1; n2; n3; n4; n5; n6; n7; n8; e1; e2; e3] ++ replicate 20 0).
  rewrite set_item_Ok by first [lia | reflexivity]. rewrite bind_Ok.
  rewrite set_item_Ok by first [lia | reflexivity]. rewrite bind_Ok.
  rewrite set_item_Ok by first [lia | reflexivity]. rewrite bind_Ok.
  rewrite set_item_Ok by first [lia | reflexivity]. rewrite bind_Ok.
  rewrite set_blocks_eq.
  - f_equal. unfold len.
    replace (Z.to_nat (16 + 0 + Z.of_nat (length (extent_group free extent))))
      with (16 + length (extent_group free extent))%nat by lia.
    rewrite <- drop_drop.
    change (Z.to_nat (16 + 0)) with 16%nat. simpl.
    do 16 f_equal. f_equal.
    change [0; 0; 0; 0; 0; 0; 0; 0; 0; 0; 0; 0; 0; 0; 0; 0]
      with (replicate 16 0).
    by rewrite drop_replicate.
  - lia.
  - unfold len in *. simpl. lia.
  - apply Forall_slice; (done || lia).
Qed.
End the_entry.

(** ** Empty slots and the directory loop *)

Lemma filter_ext_in {A} (P Q : A → Prop) `{!∀ x, Decision (P x)}
    `{!∀ x, Decision (Q x)} (l : list A) :
  (∀ x, x ∈ l → P x ↔ Q x) → filter P l = filter Q l.
Proof.
  induction l as [| x l IH]; intros Hpq; [done |].
  rewrite !filter_cons. rewrite IH by (intros y Hy; apply Hpq; by right).
  pose proof (Hpq x ltac:(by left)) as Hx.
  destruct (decide (P x)), (decide (Q x)); naive_solver.
Qed.

Lemma filter_ne_head (s : Z) (ss : list Z) :
  NoDup (s :: ss) → filter (fun i => i ≠ s) (s :: ss) = ss.
Proof.
  intros [Hs Hnd]%NoDup_cons. rewrite filter_cons.
  case_decide; [done |]. clear Hnd.
  induction ss as [| x ss IH]; [done |].
  apply not_elem_of_cons in Hs as [Hne Hs].
  rewrite filter_cons. case_decide; [| done]. f_equal. by apply IH.
Qed.

Lemma NoDup_empty_slots disk : NoDup (empty_slots disk).
Proof. apply NoDup_filter, NoDup_seqZ. Qed.

Lemma elem_of_empty_slots disk s :
  s ∈ empty_slots disk ↔
  0 ≤ s < DIR_ENTRIES ∧ status (entry_at disk s) = EMPTY_ENTRY.
Proof.
  unfold empty_slots. rewrite list_elem_of_filter, elem_of_range.
  geom. split; intros [? ?]; split; (done || lia).
Qed.

Lemma empty_slots_ext disk disk' :
  (∀ s, 0 ≤ s < DIR_ENTRIES → entry_at disk' s = entry_at disk s) →
  empty_slots disk' = empty_slots disk.
Proof.
  intros H. unfold empty_slots. apply filter_ext_in.
  intros s Hs%elem_of_range. rewrite H; [done | geom; lia].
Qed.

Lemma empty_slots_put_entry disk s entry :
  wf disk → 0 ≤ s < DIR_ENTRIES → length entry = 32%nat →
  status entry ≠ EMPTY_ENTRY →
  empty_slots (put_entry disk s entry) =
    filter (fun i => i ≠ s) (empty_slots disk).
Proof.
  intros Hwf Hs Hlen Hst. unfold empty_slots.
  rewrite list_filter_filter. apply filter_ext_in.
  intros i Hi%elem_of_range. destruct (decide (i = s)) as [-> | Hne].
  - rewrite entry_at_put_entry by done. naive_solver.
  - rewrite entry_at_put_entry_ne by (done || lia). naive_solver.
Qed.

Lemma index_disk disk i :
  wf disk → 0 ≤ i < DIR_ENTRIES →
  index disk (DIR_OFFSET + i * ENTRY_SIZE) = Ok (status (entry_at disk i)).
Proof.
  intros Hwf Hi. rewrite status_entry_at by lia. unfold wf in Hwf. geom.
  destruct (lookup_lt_is_Some_2 disk (Z.to_nat (6656 + i * 32))) as [x Hx].
  { unfold len in *. lia. }
  rewrite Hx. apply index_lookup; [lia | done].
Qed.

Lemma first_empty_eq disk slots :
  wf disk → Forall (fun i => 0 ≤ i < DIR_ENTRIES) slots →
  first_empty disk slots =
    Ok (head (filter (fun i => status (entry_at disk i) = EMPTY_ENTRY) slots)).
Proof.
  intros Hwf. induction 1 as [| i rest Hi Hrest IH]; simpl; [done |].
  rewrite index_disk, bind_Ok by done. rewrite filter_cons.
  destruct (Z.eqb_spec (status (entry_at disk i)) EMPTY_ENTRY);
    case_decide; done.
Qed.

Lemma find_free_dir_entry_eq disk :
  wf disk → find_free_dir_entry disk = Ok (head (empty_slots disk)).
Proof.
  intros Hwf. unfold find_free_dir_entry. apply first_empty_eq; [done |].
  apply Forall_forall. intros i Hi%elem_of_range. geom. lia.
Qed.

Lemma extent_count_bounds free :
  16 * extent_count free ≤ len free + 15 < 16 * extent_count free + 16.
Proof.
  unfold extent_count. pose proof (Z.div_mod (len free + 15) 16).
  pose proof (Z.mod_pos_bound (len free + 15) 16). lia.
Qed.

Lemma dir_loop_eq name ext records free :
  length name = 8%nat → length ext = 3%nat →
  Forall (fun b => 0 ≤ b < 256) free →
  ∀ (n : nat) fuel disk e,
    wf disk → 0 ≤ e → Z.of_nat n = extent_count free - e →
    (n ≤ fuel)%nat →
    (∀ k, e ≤ k < extent_count free → 0 ≤ records - k * 128) →
    dir_loop fuel disk name ext records free e (e * 16) =
      Ok (fill disk (empty_slots disk)
               (the_entry name ext records free <$> range e (extent_count free))).
Proof.
  intros Hname Hext Hbytes.
  pose proof (len_nonneg free) as Hfree.
  pose proof (extent_count_bounds free) as Hcount.
  induction n as [| n IH]; intros fuel disk e Hwf He Hn Hfuel Hrec.
  - assert ((e * 16 <? len free) = false) as Htest by lia.
    rewrite range_nil by lia.
    destruct fuel; simpl; rewrite Htest; reflexivity.
  - assert ((e * 16 <? len free) = true) as Htest by lia.
    destruct fuel as [| fuel]; [lia |]. simpl. rewrite Htest.
    rewrite find_free_dir_entry_eq, bind_Ok by done.
    rewrite (range_cons e) by lia. rewrite fmap_cons. simpl.
    pose proof (NoDup_empty_slots disk) as Hnd.
    pose proof (elem_of_empty_slots disk) as Hin.
    destruct (empty_slots disk) as [| s ss] eqn:Hslots; simpl; [done |].
    destruct (Hin s) as [[Hs Hst] _]; [by left |].
    rewrite build_entry_eq, bind_Ok by (done || apply Hrec; lia).
    fold (put_entry disk s (the_entry name ext records free e)).
    pose proof (length_the_entry name ext records free e Hname Hext He) as Hl.
    replace (e * 16 + 16) with ((e + 1) * 16) by lia.
    rewrite IH; try (done || lia).
    + rewrite empty_slots_put_entry by done.
      by rewrite Hslots, filter_ne_head.
    + by apply wf_put_entry.
    + intros k Hk. apply Hrec. lia.
Qed.

(** ** add_file on a well-formed image *)

Lemma get_ok_Ok {A} (d a : A) : get_ok d (Ok a) = a.
Proof. reflexivity. Qed.

Lemma is_ok_get_ok {A} (d : A) (m : res A) :
  is_ok m = true → m = Ok (get_ok d m).
Proof. by destruct m. Qed.

Lemma length_cpm_field (s : list Z) n :
  0 ≤ n → length (ljust (slice s 0 n) n) = Z.to_nat n.
Proof.
  intros Hn. unfold ljust. rewrite length_app, length_replicate.
  assert (len (slice s 0 n) ≤ n); [| unfold len in *; lia].
  rewrite slice_take_drop by lia. unfold len.
  rewrite length_take. lia.
Qed.

Lemma length_cpm_name target name ext :
  cpm_name target = (name, ext) → length name = 8%nat ∧ length ext = 3%nat.
Proof.
  unfold cpm_name. destruct (rsplit1 46 target) as [[n e] |];
    intros [= <- <-]; by rewrite !length_cpm_field.
Qed.

Lemma records_of_bounds data :
  128 * records_of data ≤ len data + 127 < 128 * records_of data + 128.
Proof.
  unfold records_of. geom. pose proof (Z.div_mod (len data + 128 - 1) 128).
  pose proof (Z.mod_pos_bound (len data + 128 - 1) 128). lia.
Qed.

Lemma blocks_needed_of_bounds data :
  1024 * blocks_needed_of data ≤ len data + 1023
  < 1024 * blocks_needed_of data + 1024.
Proof.
  unfold blocks_needed_of. geom.
  pose proof (Z.div_mod (len data + 1024 - 1) 1024).
  pose proof (Z.mod_pos_bound (len data + 1024 - 1) 1024). lia.
Qed.

Lemma free_take_range disk n b :
  b ∈ take n (free_list disk) → 2 ≤ b ≤ TOTAL_BLOCKS - 1.
Proof.
  intros (k & Hb & _)%elem_of_take.
  apply list_elem_of_lookup_2, free_list_range in Hb. tauto.
Qed.

Lemma add_file_eq disk filename data :
  wf disk → add_file disk filename data = Ok (add_spec disk filename data).
Proof.
  intros Hwf. unfold add_file, add_spec. cbv zeta.
  destruct (cpm_name (upper (basename filename))) as [name ext] eqn:Hcpm.
  apply length_cpm_name in Hcpm as [Hname Hext].
  rewrite find_free_blocks_eq, bind_Ok by done.
  set (free := take _ (free_list disk)).
  destruct (Z.ltb_spec (len free) (blocks_needed_of data)) as [| Hneed];
    [done |].
  assert (len free ≤ Z.max 1 (blocks_needed_of data)) as Hfree.
  { subst free. unfold len. rewrite length_take. lia. }
  assert (Forall (fun b => 2 ≤ b ≤ TOTAL_BLOCKS - 1) free) as Hrange.
  { apply Forall_forall. intros b Hb. by eapply free_take_range. }
  assert (NoDup free) as Hnd.
  { apply (sublist_NoDup free (free_list disk));
      [apply NoDup_free_list | apply sublist_take]. }
  destruct (write_blocks_spec data free disk 0 Hwf ltac:(lia) Hrange Hnd)
    as (Hwf1 & Hdir & _).
  pose proof (extent_count_bounds free) as Hcount.
  pose proof (records_of_bounds data) as Hrec.
  pose proof (blocks_needed_of_bounds data) as Hblk.
  pose proof (len_nonneg data) as Hdata.
  assert (0 ≤ extent_count free) as Hcount0
    by (pose proof (len_nonneg free); lia).
  rewrite (dir_loop_eq name ext (records_of data) free Hname Hext)
    with (n := Z.to_nat (extent_count free)) (e := 0).
  - rewrite bind_Ok, (empty_slots_ext disk) by done.
    by destruct (fill _ _ _) as [disk2 [|]].
  - eapply Forall_impl; [apply Hrange |]. intros b Hb. simpl in Hb. geom. lia.
  - done.
  - lia.
  - lia.
  - pose proof (Z.le_max_r 1 (blocks_needed_of data)).
    pose proof (Z.le_max_l 1 (blocks_needed_of data)).
    unfold len in *. lia.
  - intros k Hk. lia.
Qed.

(** C4: when the input needs more allocation blocks than are free on the
    image, [add_file] reports "Not enough space" and neither its buffer
    nor the image file differs from the image it was given. *)
Theorem add_file_no_space disk filename data :
  wf disk → free_count disk < blocks_needed_of data →
  add_file disk filename data = Ok (AddOut NotEnoughSpace disk disk).
Proof.
  intros Hwf Hfree. rewrite add_file_eq by done. unfold add_spec.
  destruct (cpm_name _) as [name ext]. cbv zeta.
  assert ((len (take (Z.to_nat (Z.max 1 (blocks_needed_of data)))
                     (free_list disk)) <? blocks_needed_of data) = true)
    as ->; [| done].
  unfold free_count, len in *. rewrite length_take. apply Z.ltb_lt.
  pose proof (Nat.le_min_r (Z.to_nat (Z.max 1 (blocks_needed_of data)))
                (length (free_list disk))).
  lia.
Qed.

(** C2, the part that holds: [add_file] writes the image file as its last
    step only, so whenever it fails the image file is byte for byte the
    image it was given (and when it succeeds the file is its buffer). *)
Theorem add_file_failure_keeps_file disk filename data out :
  add_file disk filename data = Ok out →
  (ret out = Added ∧ file out = mem out) ∨
  (ret out ≠ Added ∧ file out = disk).
Proof.
  unfold add_file.
  destruct (cpm_name (upper (basename filename))) as [name ext]. cbv zeta.
  destruct (find_free_blocks disk _) as [free |]; [| intros [=]].
  rewrite bind_Ok.
  destruct (len free <? blocks_needed_of data).
  { intros <-%Ok_inj. by right. }
  destruct (dir_loop _ _ _ _ _ _ _ _) as [[disk2 [|]] |]; [| | intros [=]].
  - rewrite bind_Ok. intros <-%Ok_inj. by left.
  - rewrite bind_Ok. intros <-%Ok_inj. by right.
Qed.

(** ** The directory after the entries went in *)

Lemma fill_spec entries : ∀ slots disk,
  wf disk → NoDup slots → Forall (fun s => 0 ≤ s < DIR_ENTRIES) slots →
  Forall (fun E => length E = 32%nat) entries →
  wf (fill disk slots entries).1 ∧
  ((fill disk slots entries).2 = true ↔ (length entries ≤ length slots)%nat) ∧
  (∀ (k : nat) s E, slots !! k = Some s → entries !! k = Some E →
     entry_at (fill disk slots entries).1 s = E) ∧
  (∀ i, 0 ≤ i → i ∉ take (length entries) slots →
     entry_at (fill disk slots entries).1 i = entry_at disk i) ∧
  (∀ b, 2 ≤ b → block_at (fill disk slots entries).1 b = block_at disk b) ∧
  (∀ k : nat,
     (∀ s, s ∈ take (length entries) slots → ¬ in_slot (Z.of_nat k) s) →
     (fill disk slots entries).1 !! k = disk !! k).
Proof.
  induction entries as [| E es IH]; intros slots disk Hwf Hnd Hr Hl.
  { simpl. repeat split; (done || lia). }
  destruct slots as [| s ss]; simpl.
  { repeat split; (done || lia). }
  apply NoDup_cons in Hnd as [Hs Hnd].
  apply Forall_cons in Hr as [Hsr Hr]. apply Forall_cons in Hl as [HE Hl].
  pose proof (wf_put_entry disk s E Hwf Hsr HE) as Hwf1.
  destruct (IH ss (put_entry disk s E) Hwf1 Hnd Hr Hl)
    as (Hwf' & Hok & Hent & Hoth & Hblk & Hfr).
  repeat split.
  - done.
  - rewrite Hok. lia.
  - rewrite Hok. lia.
  - intros [| k] s' E' Hs' HE'; simpl in *.
    + injection Hs' as <-. injection HE' as <-.
      rewrite Hoth; [by apply entry_at_put_entry | lia |].
      intros Hin%elem_of_take. destruct Hin as (j & Hj & _).
      apply Hs. by eapply list_elem_of_lookup_2.
    + by eapply Hent.
  - intros i Hi Hnot. apply not_elem_of_cons in Hnot as [Hne Hnot].
    rewrite Hoth by done. by apply entry_at_put_entry_ne.
  - intros b Hb. rewrite Hblk by done. by apply block_at_put_entry.
  - intros k Hk. rewrite Hfr.
    + apply lookup_put_entry; try done. apply Hk. by left.
    + intros s' Hs'. apply Hk. by right.
Qed.

(** ** What a run of add_file leaves *)

Lemma cpm_name_fields filename :
  cpm_name (upper (basename filename)) =
    (name_field filename, ext_field filename).
Proof. unfold name_field, ext_field. by destruct (cpm_name _). Qed.

Lemma length_name_field filename : length (name_field filename) = 8%nat.
Proof. by destruct (length_cpm_name _ _ _ (cpm_name_fields filename)). Qed.

Lemma length_ext_field filename : length (ext_field filename) = 3%nat.
Proof. by destruct (length_cpm_name _ _ _ (cpm_name_fields filename)). Qed.

Lemma add_spec_eq disk filename data :
  add_spec disk filename data =
    if len (alloc_blocks disk data) <? blocks_needed_of data
    then AddOut NotEnoughSpace disk disk
    else
      let r := fill (write_blocks disk data (alloc_blocks disk data) 0)
                    (empty_slots disk) (file_entries disk filename data) in
      if r.2 then AddOut Added r.1 r.1 else AddOut NoFreeDirEntries r.1 disk.
Proof.
  unfold add_spec. rewrite cpm_name_fields. cbv zeta.
  fold (alloc_blocks disk data). fold (file_entries disk filename data).
  destruct (_ <? _); [done |]. by destruct (fill _ _ _) as [d [|]].
Qed.

Lemma alloc_blocks_range disk data :
  Forall (fun b => 2 ≤ b ≤ TOTAL_BLOCKS - 1) (alloc_blocks disk data).
Proof. apply Forall_forall. intros b Hb. by eapply free_take_range. Qed.

Lemma NoDup_alloc_blocks disk data : NoDup (alloc_blocks disk data).
Proof.
  apply (sublist_NoDup _ (free_list disk));
    [apply NoDup_free_list | apply sublist_take].
Qed.

Lemma alloc_blocks_free disk data b :
  b ∈ alloc_blocks disk data → b ∉ referenced disk.
Proof.
  intros (k & Hb & _)%elem_of_take.
  apply list_elem_of_lookup_2, free_list_range in Hb. tauto.
Qed.

Lemma len_alloc_blocks disk data :
  len (alloc_blocks disk data) =
    Z.min (Z.max 1 (blocks_needed_of data)) (free_count disk).
Proof.
  unfold alloc_blocks, free_count, len. rewrite length_take. lia.
Qed.

Lemma length_file_entries disk filename data :
  length (file_entries disk filename data) =
    Z.to_nat (extent_count (alloc_blocks disk data)).
Proof.
  unfold file_entries, range. rewrite length_fmap, length_seqZ. f_equal. lia.
Qed.

Lemma lookup_file_entries disk filename data (k : nat) :
  Z.of_nat k < extent_count (alloc_blocks disk data) →
  file_entries disk filename data !! k =
    Some (the_entry (name_field filename) (ext_field filename)
                    (records_of data) (alloc_blocks disk data) (Z.of_nat k)).
Proof.
  intros Hk. unfold file_entries. rewrite list_lookup_fmap.
  rewrite lookup_range by lia. simpl. do 2 f_equal.
Qed.

Lemma Forall_length_file_entries disk filename data :
  Forall (fun E => length E = 32%nat) (file_entries disk filename data).
Proof.
  unfold file_entries. apply Forall_fmap, Forall_forall.
  intros e He%elem_of_range. simpl.
  apply length_the_entry;
    [apply length_name_field | apply length_ext_field | lia].
Qed.

Lemma empty_slots_range disk :
  Forall (fun s => 0 ≤ s < DIR_ENTRIES) (empty_slots disk).
Proof. apply Forall_forall. intros s Hs%elem_of_empty_slots. tauto. Qed.

Lemma extent_count_nonneg free : 0 ≤ extent_count free.
Proof.
  pose proof (extent_count_bounds free). pose proof (len_nonneg free). lia.
Qed.

(** A run that returned [True]. *)
Lemma add_file_Added_spec disk filename data out :
  wf disk → add_file disk filename data = Ok out → ret out = Added →
  let blocks := alloc_blocks disk data in
  let slots := claimed_slots disk data in
  blocks_needed_of data ≤ len blocks ∧
  len slots = extent_count blocks ∧
  mem out = file out ∧ wf (file out) ∧
  (∀ (k : nat) s, slots !! k = Some s →
     entry_at (file out) s =
       the_entry (name_field filename) (ext_field filename)
                 (records_of data) blocks (Z.of_nat k)) ∧
  (∀ i, 0 ≤ i < DIR_ENTRIES → i ∉ slots →
     entry_at (file out) i = entry_at disk i) ∧
  (∀ (k : nat) b, blocks !! k = Some b →
     block_at (file out) b = block_chunk data (Z.of_nat k)) ∧
  (∀ b, 2 ≤ b → b ∉ blocks → block_at (file out) b = block_at disk b) ∧
  (∀ k : nat,
     (∀ b, b ∈ blocks → ¬ in_block (Z.of_nat k) b) →
     (∀ s, s ∈ slots → ¬ in_slot (Z.of_nat k) s) →
     file out !! k = disk !! k).
Proof.
  intros Hwf Hadd Hret blocks slots.
  rewrite add_file_eq, add_spec_eq in Hadd by done. apply Ok_inj in Hadd.
  fold blocks in Hadd.
  destruct (Z.ltb_spec (len blocks) (blocks_needed_of data)) as [| Hneed];
    [subst out; discriminate |].
  cbv zeta in Hadd.
  destruct (write_blocks_spec data blocks disk 0 Hwf ltac:(lia)
              (alloc_blocks_range disk data) (NoDup_alloc_blocks disk data))
    as (Hwf1 & Hdir1 & Hblk1 & Hoth1 & Hfr1).
  destruct (fill_spec (file_entries disk filename data) (empty_slots disk)
              (write_blocks disk data blocks 0) Hwf1
              (NoDup_empty_slots disk) (empty_slots_range disk)
              (Forall_length_file_entries disk filename data))
    as (Hwf2 & Hok & Hent & Hoth & Hblk & Hfr).
  rewrite length_file_entries in Hok, Hoth, Hfr.
  fold blocks in Hok, Hoth, Hfr. fold slots in Hoth, Hfr.
  pose proof (extent_count_nonneg blocks) as Hcount.
  destruct (fill _ _ _) as [d2 ok] eqn:Hfill. simpl in *.
  destruct ok; subst out; [clear Hret | discriminate]. simpl.
  assert (Z.to_nat (extent_count blocks) ≤ length (empty_slots disk))%nat
    as Hlen by (by apply Hok).
  assert (len slots = extent_count blocks) as Hslots.
  { unfold slots, claimed_slots, len. fold blocks. rewrite length_take. lia. }
  repeat split; try done.
  - intros k s Hs. apply lookup_lt_Some in Hs as Hk.
    unfold len in Hslots. apply lookup_take_Some in Hs as [Hs _].
    apply (Hent k s); [done |]. fold blocks.
    rewrite lookup_file_entries; [done | fold blocks; lia].
  - intros i Hi Hnot. rewrite Hoth by (done || lia). by apply Hdir1.
  - intros k b Hb. rewrite Hblk.
    + rewrite (Hblk1 k b Hb). f_equal; lia.
    + apply list_elem_of_lookup_2 in Hb.
      pose proof (alloc_blocks_range disk data) as Hr.
      rewrite Forall_forall in Hr. apply Hr in Hb. lia.
  - intros b Hb Hnot. rewrite Hblk by done. by apply Hoth1.
  - intros k Hkb Hks. rewrite Hfr by done. by apply Hfr1.
Qed.

Lemma add_file_status disk filename data :
  wf disk →
  ∃ out, add_file disk filename data = Ok out ∧
         ret out = expected_status disk data.
Proof.
  intros Hwf. rewrite add_file_eq, add_spec_eq by done. eexists.
  split; [done |]. unfold expected_status.
  pose proof (len_alloc_blocks disk data) as Hlen.
  destruct (Z.ltb_spec (len (alloc_blocks disk data)) (blocks_needed_of data)),
    (Z.ltb_spec (free_count disk) (blocks_needed_of data)); try lia; [done |].
  cbv zeta.
  destruct (write_blocks_spec data (alloc_blocks disk data) disk 0 Hwf
              ltac:(lia) (alloc_blocks_range disk data)
              (NoDup_alloc_blocks disk data)) as (Hwf1 & _).
  destruct (fill_spec (file_entries disk filename data) (empty_slots disk)
              (write_blocks disk data (alloc_blocks disk data) 0) Hwf1
              (NoDup_empty_slots disk) (empty_slots_range disk)
              (Forall_length_file_entries disk filename data))
    as (_ & Hok & _).
  rewrite length_file_entries in Hok.
  pose proof (extent_count_nonneg (alloc_blocks disk data)).
  destruct (fill _ _ _) as [d2 [|]]; simpl in *;
    destruct (Z.leb_spec (extent_count (alloc_blocks disk data))
                (len (empty_slots disk))); try done; unfold len in *.
  - assert (Z.to_nat (extent_count (alloc_blocks disk data))
            ≤ length (empty_slots disk))%nat by (by apply Hok). lia.
  - assert (false = true); [apply Hok; lia | done].
Qed.

(** A run that returned at "No free directory entries". *)
Lemma add_file_NoFree_spec disk filename data out :
  wf disk → add_file disk filename data = Ok out →
  ret out = NoFreeDirEntries →
  file out = disk ∧ wf (mem out) ∧
  len (empty_slots disk) < extent_count (alloc_blocks disk data) ∧
  (∀ (k : nat) s, empty_slots disk !! k = Some s →
     entry_at (mem out) s =
       the_entry (name_field filename) (ext_field filename)
                 (records_of data) (alloc_blocks disk data) (Z.of_nat k)).
Proof.
  intros Hwf Hadd Hret.
  destruct (add_file_status disk filename data Hwf) as (out' & Hadd' & Hst).
  rewrite Hadd in Hadd'. apply Ok_inj in Hadd'. subst out'.
  rewrite Hret in Hst. unfold expected_status in Hst.
  destruct (Z.ltb_spec (free_count disk) (blocks_needed_of data));
    [discriminate |].
  destruct (Z.leb_spec (extent_count (alloc_blocks disk data))
              (len (empty_slots disk))) as [| Hfew]; [discriminate |].
  clear Hst. rewrite add_file_eq, add_spec_eq in Hadd by done.
  apply Ok_inj in Hadd.
  pose proof (len_alloc_blocks disk data) as Hlen.
  destruct (Z.ltb_spec (len (alloc_blocks disk data)) (blocks_needed_of data));
    [lia |].
  cbv zeta in Hadd.
  destruct (write_blocks_spec data (alloc_blocks disk data) disk 0 Hwf
              ltac:(lia) (alloc_blocks_range disk data)
              (NoDup_alloc_blocks disk data)) as (Hwf1 & _).
  destruct (fill_spec (file_entries disk filename data) (empty_slots disk)
              (write_blocks disk data (alloc_blocks disk data) 0) Hwf1
              (NoDup_empty_slots disk) (empty_slots_range disk)
              (Forall_length_file_entries disk filename data))
    as (Hwf2 & _ & Hent & _).
  destruct (fill _ _ _) as [d2 [|]]; simpl in *; subst out;
    [discriminate |]. simpl.
  repeat split; try done.
  intros k s Hs. apply lookup_lt_Some in Hs as Hk.
  apply (Hent k s _ Hs). apply lookup_file_entries. unfold len in *. lia.
Qed.

(** ** Status bytes set one by one: create_disk and the example images *)

Lemma insert_status_put_entry disk s v :
  wf disk → 0 ≤ s < DIR_ENTRIES →
  <[Z.to_nat (DIR_OFFSET + s * ENTRY_SIZE) := v]> disk =
    put_entry disk s (<[0%nat := v]> (entry_at disk s)).
Proof.
  intros Hwf Hs. apply list_eq. intros k. unfold put_entry.
  pose proof (length_entry_at disk s Hwf Hs) as Hlen.
  unfold wf in Hwf.
  rewrite lookup_splice
    by (geom; unfold len in *; rewrite ?length_insert; lia).
  rewrite list_lookup_insert. geom. unfold len in *.
  destruct (decide (Z.of_nat k = 6656 + s * 32)) as [Hk | Hk].
  - rewrite decide_True by lia. rewrite decide_True by lia.
    replace (k - Z.to_nat (6656 + s * 32))%nat with 0%nat by lia.
    by rewrite list_lookup_insert_eq by lia.
  - rewrite decide_False by lia. case_decide as Hin; [| done].
    rewrite list_lookup_insert_ne by lia.
    rewrite lookup_entry_at by lia. geom. f_equal. lia.
Qed.

Lemma wf_mark_slots v slots : ∀ disk, wf disk → wf (mark_slots v slots disk).
Proof.
  induction slots as [| s ss IH]; intros disk Hwf; [done |].
  apply IH. unfold wf, len in *. by rewrite length_insert.
Qed.

Lemma entry_at_mark_slots v slots : ∀ disk i,
  wf disk → Forall (fun s => 0 ≤ s < DIR_ENTRIES) slots →
  0 ≤ i < DIR_ENTRIES →
  entry_at (mark_slots v slots disk) i =
    if decide (i ∈ slots) then <[0%nat := v]> (entry_at disk i)
    else entry_at disk i.
Proof.
  induction slots as [| s ss IH]; intros disk i Hwf Hr Hi.
  { destruct (decide (i ∈ [])) as [Hin | _]; [| done].
    by apply elem_of_nil in Hin. }
  apply Forall_cons in Hr as [Hs Hr].
  change (mark_slots v (s :: ss) disk)
    with (mark_slots v ss (<[Z.to_nat (DIR_OFFSET + s * ENTRY_SIZE) := v]> disk)).
  rewrite insert_status_put_entry by done.
  pose proof (length_entry_at disk s Hwf Hs) as Hlen.
  assert (length (<[0%nat := v]> (entry_at disk s)) = 32%nat) as Hlen'
    by (by rewrite length_insert).
  rewrite IH by (done || by apply wf_put_entry).
  destruct (decide (i = s)) as [-> | Hne].
  - rewrite entry_at_put_entry by done.
    rewrite (decide_True (P := s ∈ s :: ss)) by (by left).
    case_decide; [by rewrite list_insert_insert_eq | done].
  - rewrite entry_at_put_entry_ne by (done || lia).
    destruct (decide (i ∈ ss)) as [Hin | Hnin].
    + by rewrite decide_True by (by right).
    + rewrite decide_False; [done |].
      intros [? | ?]%elem_of_cons; done.
Qed.

Lemma block_at_mark_slots v slots : ∀ disk b,
  wf disk → Forall (fun s => 0 ≤ s < DIR_ENTRIES) slots → 2 ≤ b →
  block_at (mark_slots v slots disk) b = block_at disk b.
Proof.
  induction slots as [| s ss IH]; intros disk b Hwf Hr Hb; [done |].
  apply Forall_cons in Hr as [Hs Hr].
  change (mark_slots v (s :: ss) disk)
    with (mark_slots v ss (<[Z.to_nat (DIR_OFFSET + s * ENTRY_SIZE) := v]> disk)).
  rewrite insert_status_put_entry by done.
  pose proof (length_entry_at disk s Hwf Hs) as Hlen.
  assert (length (<[0%nat := v]> (entry_at disk s)) = 32%nat) as Hlen'
    by (by rewrite length_insert).
  rewrite IH by (done || by apply wf_put_entry).
  by apply block_at_put_entry.
Qed.

Lemma lookup_mark_slots_ne v slots (k : nat) : ∀ disk,
  Forall (fun s => 0 ≤ s < DIR_ENTRIES) slots →
  (∀ s, s ∈ slots → Z.of_nat k ≠ DIR_OFFSET + s * ENTRY_SIZE) →
  mark_slots v slots disk !! k = disk !! k.
Proof.
  induction slots as [| s ss IH]; intros disk Hr Hk; [done |].
  apply Forall_cons in Hr as [Hs Hr].
  change (mark_slots v (s :: ss) disk)
    with (mark_slots v ss (<[Z.to_nat (DIR_OFFSET + s * ENTRY_SIZE) := v]> disk)).
  rewrite IH by (done || intros s' Hs'; apply Hk; by right).
  apply list_lookup_insert_ne.
  specialize (Hk s ltac:(by left)). geom. lia.
Qed.

Lemma foldM_set_item v slots : ∀ disk,
  0 ≤ v < 256 →
  Forall (fun s => 0 ≤ DIR_OFFSET + s * ENTRY_SIZE < len disk) slots →
  foldM (fun disk i => set_item disk (DIR_OFFSET + i * ENTRY_SIZE) v)
        slots disk = Ok (mark_slots v slots disk).
Proof.
  induction slots as [| s ss IH]; intros disk Hv Hr; [done |].
  apply Forall_cons in Hr as [Hs Hr]. simpl.
  rewrite set_item_Ok, bind_Ok by lia. apply IH; [done |].
  unfold len in *. by rewrite length_insert.
Qed.

Lemma wf_zeros : wf (repeat_byte 0 DISK_SIZE).
Proof. unfold wf. apply len_repeat_byte. by geom. Qed.

Lemma range_dir_entries :
  Forall (fun s => 0 ≤ s < DIR_ENTRIES) (range 0 DIR_ENTRIES).
Proof. apply Forall_forall. intros s Hs%elem_of_range. lia. Qed.

Lemma create_disk_eq :
  create_disk =
    Ok (mark_slots EMPTY_ENTRY (range 0 DIR_ENTRIES) (repeat_byte 0 DISK_SIZE)).
Proof.
  unfold create_disk. cbv zeta. apply foldM_set_item; [by geom |].
  apply Forall_forall. intros s Hs%elem_of_range.
  rewrite wf_zeros. geom. lia.
Qed.

Lemma blank_eq :
  blank =
    mark_slots EMPTY_ENTRY (range 0 DIR_ENTRIES) (repeat_byte 0 DISK_SIZE).
Proof. unfold blank. rewrite create_disk_eq. apply get_ok_Ok. Qed.

Lemma lookup_zeros (k : nat) :
  Z.of_nat k < DISK_SIZE → repeat_byte 0 DISK_SIZE !! k = Some 0.
Proof. intros Hk. apply lookup_replicate_2. lia. Qed.

Lemma entry_at_zeros i :
  0 ≤ i < DIR_ENTRIES → entry_at (repeat_byte 0 DISK_SIZE) i = replicate 32 0.
Proof.
  intros Hi. apply list_eq. intros k.
  destruct (decide (k < 32)%nat) as [Hk | Hk].
  - rewrite lookup_entry_at by lia. rewrite lookup_zeros by (geom; lia).
    by rewrite lookup_replicate_2.
  - rewrite !lookup_ge_None_2; [done | rewrite length_replicate; lia |].
    rewrite (length_entry_at _ _ wf_zeros Hi). lia.
Qed.

Lemma filter_all {A} (P : A → Prop) `{!∀ x, Decision (P x)} (l : list A) :
  (∀ x, x ∈ l → P x) → filter P l = l.
Proof.
  induction l as [| x l IH]; intros Hall; [done |].
  rewrite filter_cons, decide_True by (apply Hall; by left).
  f_equal. apply IH. intros y Hy. apply Hall. by right.
Qed.

Lemma filter_none {A} (P : A → Prop) `{!∀ x, Decision (P x)} (l : list A) :
  (∀ x, x ∈ l → ¬ P x) → filter P l = [].
Proof.
  induction l as [| x l IH]; intros Hnone; [done |].
  rewrite filter_cons, decide_False by (apply Hnone; by left).
  apply IH. intros y Hy. apply Hnone. by right.
Qed.

Lemma referenced_nil disk :
  (∀ i, 0 ≤ i < DIR_ENTRIES → slot_refs disk i = []) → referenced disk = [].
Proof.
  intros Hnil. unfold referenced.
  assert (∀ l, Forall (fun i => 0 ≤ i < DIR_ENTRIES) l →
               concat (slot_refs disk <$> l) = []) as Hl.
  { induction 1 as [| i l Hi _ IH]; [done |].
    rewrite fmap_cons. simpl. rewrite IH, app_nil_r. by apply Hnil. }
  apply Hl, range_dir_entries.
Qed.

Lemma free_list_unreferenced disk :
  referenced disk = [] → free_list disk = range 2 TOTAL_BLOCKS.
Proof.
  intros Hnil. unfold free_list. rewrite Hnil. apply filter_all.
  intros b _. apply not_elem_of_nil.
Qed.

Lemma wf_blank : wf blank.
Proof. rewrite blank_eq. apply wf_mark_slots, wf_zeros. Qed.

Lemma entry_at_blank i :
  0 ≤ i < DIR_ENTRIES → entry_at blank i = EMPTY_ENTRY :: replicate 31 0.
Proof.
  intros Hi. rewrite blank_eq.
  rewrite (entry_at_mark_slots _ _ _ _ wf_zeros range_dir_entries Hi).
  rewrite decide_True by (apply elem_of_range; lia).
  rewrite (entry_at_zeros _ Hi). reflexivity.
Qed.

Lemma referenced_blank : referenced blank = [].
Proof.
  apply referenced_nil. intros i Hi. unfold slot_refs.
  rewrite (entry_at_blank _ Hi). reflexivity.
Qed.

Lemma empty_slots_blank : empty_slots blank = range 0 DIR_ENTRIES.
Proof.
  unfold empty_slots. apply filter_all. intros i Hi%elem_of_range.
  rewrite (entry_at_blank _ Hi). reflexivity.
Qed.

Lemma free_list_from_scan disk l :
  wf disk → find_free_blocks disk (TOTAL_BLOCKS - 2) = Ok l →
  free_list disk = l.
Proof.
  intros Hwf. rewrite find_free_blocks_eq by exact Hwf. intros <-%Ok_inj.
  symmetry. apply take_ge. unfold free_list.
  etransitivity; [apply length_filter |].
  unfold range. rewrite length_seqZ. geom. lia.
Qed.

Lemma free_list_blank : free_list blank = range 2 TOTAL_BLOCKS.
Proof. apply free_list_unreferenced, referenced_blank. Qed.

Lemma free_count_blank : free_count blank = 245.
Proof. unfold free_count. rewrite free_list_blank. reflexivity. Qed.

Lemma one_slot_disk_eq :
  one_slot_disk = mark_slots 0 (range 1 DIR_ENTRIES) blank.
Proof. unfold one_slot_disk, mark_slots. reflexivity. Qed.

Lemma range_1_dir_entries :
  Forall (fun s => 0 ≤ s < DIR_ENTRIES) (range 1 DIR_ENTRIES).
Proof. apply Forall_forall. intros s Hs%elem_of_range. lia. Qed.

Lemma wf_one_slot_disk : wf one_slot_disk.
Proof. rewrite one_slot_disk_eq. apply wf_mark_slots, wf_blank. Qed.

Lemma entry_at_one_slot_disk i :
  0 ≤ i < DIR_ENTRIES →
  entry_at one_slot_disk i =
    if decide (i = 0) then EMPTY_ENTRY :: replicate 31 0 else replicate 32 0.
Proof.
  intros Hi. rewrite one_slot_disk_eq.
  rewrite (entry_at_mark_slots _ _ _ _ wf_blank range_1_dir_entries Hi).
  rewrite (entry_at_blank _ Hi).
  destruct (decide (i = 0)) as [-> | Hne].
  - rewrite decide_False; [reflexivity |]. intros Hin%elem_of_range. lia.
  - rewrite decide_True; [reflexivity |]. apply elem_of_range. lia.
Qed.

Lemma referenced_one_slot_disk : referenced one_slot_disk = [].
Proof.
  apply referenced_nil. intros i Hi. unfold slot_refs.
  rewrite (entry_at_one_slot_disk _ Hi).
  destruct (decide (i = 0)); reflexivity.
Qed.

Lemma empty_slots_one_slot_disk : empty_slots one_slot_disk = [0].
Proof.
  unfold empty_slots. rewrite (range_cons 0) by (unfold DIR_ENTRIES; lia).
  rewrite filter_cons.
  rewrite (entry_at_one_slot_disk 0) by (unfold DIR_ENTRIES; lia).
  rewrite decide_True by reflexivity.
  rewrite filter_none; [reflexivity |]. intros i Hi%elem_of_range.
  rewrite (entry_at_one_slot_disk i) by lia.
  rewrite decide_False by lia. intros [=].
Qed.

Lemma free_list_one_slot_disk : free_list one_slot_disk = range 2 TOTAL_BLOCKS.
Proof. apply free_list_unreferenced, referenced_one_slot_disk. Qed.

Lemma blocks_needed_17 : blocks_needed_of file_17_blocks = 17.
Proof.
  unfold blocks_needed_of, file_17_blocks. rewrite len_repeat_byte by lia.
  reflexivity.
Qed.

Lemma blocks_needed_246 : blocks_needed_of file_246_blocks = 246.
Proof.
  unfold blocks_needed_of, file_246_blocks. rewrite len_repeat_byte by lia.
  reflexivity.
Qed.

Lemma add_file_one_slot :
  add_file one_slot_disk (pystr "BIG.BIN") file_17_blocks = Ok out_one_slot.
Proof.
  unfold out_one_slot. rewrite (add_file_eq _ _ _ wf_one_slot_disk).
  rewrite get_ok_Ok. reflexivity.
Qed.

Lemma expected_status_one_slot :
  expected_status one_slot_disk file_17_blocks = NoFreeDirEntries.
Proof.
  unfold expected_status, alloc_blocks, free_count.
  rewrite blocks_needed_17, free_list_one_slot_disk, empty_slots_one_slot_disk.
  reflexivity.
Qed.

Lemma out_one_slot_ret : ret out_one_slot = NoFreeDirEntries.
Proof.
  destruct (add_file_status one_slot_disk (pystr "BIG.BIN") file_17_blocks
              wf_one_slot_disk) as (out & Hadd & Hret).
  rewrite add_file_one_slot in Hadd. apply Ok_inj in Hadd. subst out.
  rewrite Hret. apply expected_status_one_slot.
Qed.

Lemma find_free_blocks_range_witness :
  find_free_blocks blank 3 = Ok [2; 3; 4] ∧
  Forall (fun b =>
            2 ≤ b ≤ TOTAL_BLOCKS - 1 ∧ TOTAL_BLOCKS - 1 = 246 ∧
            ∀ entry j, 0 ≤ j → 16 + j < len entry →
              set_item entry (16 + j) b = Ok (<[Z.to_nat (16 + j) := b]> entry))
         [2; 3; 4].
Proof.
  assert (find_free_blocks blank 3 = Ok [2; 3; 4]) as Hscan.
  { rewrite (find_free_blocks_eq _ _ wf_blank), free_list_blank.
    reflexivity. }
  split; [exact Hscan |].
  exact (find_free_blocks_range blank 3 [2; 3; 4] Hscan).
Defined.

Lemma add_file_no_space_witness :
  wf blank ∧ free_count blank < blocks_needed_of file_246_blocks ∧
  add_file blank (pystr "BIG.BIN") file_246_blocks =
    Ok (AddOut NotEnoughSpace blank blank).
Proof.
  assert (free_count blank < blocks_needed_of file_246_blocks) as Hfree
    by (rewrite free_count_blank, blocks_needed_246; reflexivity).
  split; [exact wf_blank |]. split; [exact Hfree |].
  exact (add_file_no_space blank (pystr "BIG.BIN") file_246_blocks
           wf_blank Hfree).
Defined.

Lemma add_file_failure_keeps_file_witness :
  add_file one_slot_disk (pystr "BIG.BIN") file_17_blocks = Ok out_one_slot ∧
  ((ret out_one_slot = Added ∧ file out_one_slot = mem out_one_slot) ∨
   (ret out_one_slot ≠ Added ∧ file out_one_slot = one_slot_disk)).
Proof.
  split; [exact add_file_one_slot |].
  exact (add_file_failure_keeps_file one_slot_disk (pystr "BIG.BIN")
           file_17_blocks out_one_slot add_file_one_slot).
Defined.

Lemma out_one_slot_failed : ret out_one_slot ≠ Added.
Proof. rewrite out_one_slot_ret. discriminate. Qed.

Lemma slot_0_range : 0 ≤ 0 < DIR_ENTRIES.
Proof. unfold DIR_ENTRIES. lia. Qed.

Lemma out_one_slot_status : status (entry_at (mem out_one_slot) 0) = 0.
Proof.
  destruct (add_file_NoFree_spec one_slot_disk (pystr "BIG.BIN")
              file_17_blocks out_one_slot wf_one_slot_disk add_file_one_slot
              out_one_slot_ret) as (_ & _ & _ & Hent).
  rewrite (Hent 0%nat 0).
  - apply status_the_entry.
  - rewrite empty_slots_one_slot_disk. reflexivity.
Qed.

Lemma one_slot_disk_status : status (entry_at one_slot_disk 0) = EMPTY_ENTRY.
Proof. rewrite (entry_at_one_slot_disk 0 slot_0_range). reflexivity. Qed.

(** C2 as stated fails: [add_file] does not check the directory slots
    before it writes. On an image with one empty slot, a file of 17 blocks
    (two extents) fails with "No free directory entries" after the entry of
    its first extent went into the buffer, so the buffer of the failed call
    holds a half-written file. *)
Lemma add_file_writes_before_failure :
  ¬ (∀ disk filename data out,
       wf disk → add_file disk filename data = Ok out → ret out ≠ Added →
       ∀ s, 0 ≤ s < DIR_ENTRIES → entry_at (mem out) s = entry_at disk s).
Proof.
  intros H.
  pose proof (H one_slot_disk (pystr "BIG.BIN") file_17_blocks out_one_slot
                wf_one_slot_disk add_file_one_slot out_one_slot_failed
                0 slot_0_range) as H0.
  apply (f_equal status) in H0.
  rewrite out_one_slot_status, one_slot_disk_status in H0. discriminate H0.
Qed.

(** * Further properties of the code *)

(** ** find_free_blocks and find_free_dir_entry *)

(** X1: on a well-formed image [find_free_blocks(disk, count)] raises
    nothing and returns the lowest free block numbers in ascending order:
    the first [max(count, 1)] of them, or all when there are fewer. The
    test for [count] comes after the append, so a request for 0 blocks
    still returns one block when any is free. *)
Theorem find_free_blocks_first_fit disk count :
  wf disk →
  ∃ free,
    find_free_blocks disk count = Ok free ∧
    free = take (Z.to_nat (Z.max 1 count)) (free_list disk) ∧
    len free = Z.min (Z.max 1 count) (free_count disk) ∧
    NoDup free ∧
    (∀ b, b ∈ free → 2 ≤ b < TOTAL_BLOCKS ∧ b ∉ referenced disk) ∧
    (count ≤ 0 → free = take 1 (free_list disk)).
Proof.
  intros Hwf. eexists. split; [by apply find_free_blocks_eq |].
  split; [done |]. split; [| split; [| split]].
  - unfold free_count, len. rewrite length_take. lia.
  - apply (sublist_NoDup _ (free_list disk));
      [apply NoDup_free_list | apply sublist_take].
  - intros b (k & Hb & _)%elem_of_take.
    apply list_elem_of_lookup_2, free_list_range in Hb. split; [lia | tauto].
  - intros Hcount. by rewrite Z.max_l by lia.
Qed.

Lemma head_filter_seqZ (P : Z → Prop) `{!∀ x, Decision (P x)} (n : nat) :
  ∀ a,
    match head (filter P (seqZ a (Z.of_nat n))) with
    | Some i => a ≤ i < a + Z.of_nat n ∧ P i ∧ ∀ j, a ≤ j < i → ¬ P j
    | None => ∀ j, a ≤ j < a + Z.of_nat n → ¬ P j
    end.
Proof.
  induction n as [| n IH]; intros a.
  { simpl. intros j Hj. lia. }
  rewrite seqZ_cons by lia. rewrite filter_cons.
  replace (Z.pred (Z.of_nat (S n))) with (Z.of_nat n) by lia.
  destruct (decide (P a)) as [Ha | Ha]; simpl.
  - split; [lia |]. split; [done |]. intros j Hj. lia.
  - specialize (IH (Z.succ a)).
    destruct (head (filter P (seqZ (Z.succ a) (Z.of_nat n)))) as [i |].
    + destruct IH as (Hi & HP & Hlow). split; [lia |]. split; [done |].
      intros j Hj. destruct (decide (j = a)) as [-> | Hne]; [done |].
      apply Hlow. lia.
    + intros j Hj. destruct (decide (j = a)) as [-> | Hne]; [done |].
      apply IH. lia.
Qed.

(** X2: on a well-formed image [find_free_dir_entry] raises nothing and
    returns the lowest directory slot whose status byte is 0xE5; it returns
    [None] exactly when no slot carries that mark. *)
Theorem find_free_dir_entry_first disk :
  wf disk →
  ∃ r,
    find_free_dir_entry disk = Ok r ∧
    match r with
    | Some i =>
        0 ≤ i < DIR_ENTRIES ∧ status (entry_at disk i) = EMPTY_ENTRY ∧
        ∀ j, 0 ≤ j < i → status (entry_at disk j) ≠ EMPTY_ENTRY
    | None =>
        ∀ j, 0 ≤ j < DIR_ENTRIES → status (entry_at disk j) ≠ EMPTY_ENTRY
    end.
Proof.
  intros Hwf. eexists. split; [by apply find_free_dir_entry_eq |].
  unfold empty_slots, range.
  pose proof (head_filter_seqZ
                (fun i => status (entry_at disk i) = EMPTY_ENTRY) 64 0) as H.
  change (Z.of_nat 64) with (DIR_ENTRIES - 0) in H.
  destruct (head _) as [i |]; [| exact H].
  destruct H as (Hi & Hst & Hlow). unfold DIR_ENTRIES in *.
  split; [lia |]. split; [done |]. exact Hlow.
Qed.

Lemma find_free_blocks_first_fit_witness :
  wf blank ∧
  ∃ free,
    find_free_blocks blank 0 = Ok free ∧
    free = take (Z.to_nat (Z.max 1 0)) (free_list blank) ∧
    len free = Z.min (Z.max 1 0) (free_count blank) ∧
    NoDup free ∧
    (∀ b, b ∈ free → 2 ≤ b < TOTAL_BLOCKS ∧ b ∉ referenced blank) ∧
    (0 ≤ 0 → free = take 1 (free_list blank)).
Proof.
  split; [exact wf_blank |].
  exact (find_free_blocks_first_fit blank 0 wf_blank).
Defined.

Lemma find_free_dir_entry_first_witness :
  wf blank ∧
  ∃ r,
    find_free_dir_entry blank = Ok r ∧
    match r with
    | Some i =>
        0 ≤ i < DIR_ENTRIES ∧ status (entry_at blank i) = EMPTY_ENTRY ∧
        ∀ j, 0 ≤ j < i → status (entry_at blank j) ≠ EMPTY_ENTRY
    | None =>
        ∀ j, 0 ≤ j < DIR_ENTRIES → status (entry_at blank j) ≠ EMPTY_ENTRY
    end.
Proof.
  split; [exact wf_blank |].
  exact (find_free_dir_entry_first blank wf_blank).
Defined.

(** ** create_disk *)

Lemma lookup_blank (k : nat) :
  Z.of_nat k < DISK_SIZE →
  blank !! k =
    Some (if decide (DIR_OFFSET ≤ Z.of_nat k < DATA_OFFSET ∧
                     (Z.of_nat k - DIR_OFFSET) `mod` ENTRY_SIZE = 0)
          then EMPTY_ENTRY else 0).
Proof.
  intros Hk. case_decide as Hdec.
  - destruct Hdec as [Hin Hmod]. geom.
    pose proof (Z.div_mod (Z.of_nat k - 6656) 32 ltac:(lia)) as Hdiv.
    set (i := (Z.of_nat k - 6656) / 32) in *.
    assert (0 ≤ i < DIR_ENTRIES) as Hi by (unfold DIR_ENTRIES; lia).
    pose proof (lookup_entry_at blank i 0 ltac:(lia) ltac:(lia)) as Hl.
    rewrite (entry_at_blank i Hi) in Hl. simpl in Hl. geom.
    replace (Z.to_nat (6656 + i * 32 + Z.of_nat 0)) with k in Hl by lia.
    rewrite <- Hl. reflexivity.
  - rewrite blank_eq, lookup_mark_slots_ne.
    + exact (lookup_zeros k Hk).
    + apply range_dir_entries.
    + intros s Hs%elem_of_range Heq. apply Hdec. geom. split; [lia |].
      replace (Z.of_nat k - 6656) with (s * 32) by lia.
      by rewrite Z.mod_mul by lia.
Qed.

(** X3: [create_disk] raises nothing. Its image has [DISK_SIZE] bytes: the
    first byte of each of the 64 directory slots is 0xE5 and every other
    byte is 0. So all 64 slots are empty, no block is referenced, and the
    [TOTAL_BLOCKS - 2] = 245 blocks numbered 2 to 246 are free. *)
Theorem create_disk_image :
  ∃ disk,
    create_disk = Ok disk ∧ len disk = DISK_SIZE ∧
    (∀ k : nat, Z.of_nat k < DISK_SIZE →
       disk !! k =
         Some (if decide (DIR_OFFSET ≤ Z.of_nat k < DATA_OFFSET ∧
                          (Z.of_nat k - DIR_OFFSET) `mod` ENTRY_SIZE = 0)
               then EMPTY_ENTRY else 0)) ∧
    empty_slots disk = range 0 DIR_ENTRIES ∧
    referenced disk = [] ∧
    free_list disk = range 2 TOTAL_BLOCKS ∧
    free_count disk = TOTAL_BLOCKS - 2.
Proof.
  exists blank. split; [rewrite blank_eq; exact create_disk_eq |].
  split; [exact wf_blank |]. split; [exact lookup_blank |].
  split; [exact empty_slots_blank |]. split; [exact referenced_blank |].
  split; [exact free_list_blank | exact free_count_blank].
Qed.

(** ** The outcome of add_file *)


Lemma blocks_needed_hello : blocks_needed_of hello_data = 2.
Proof.
  unfold blocks_needed_of, hello_data. rewrite len_repeat_byte by lia.
  reflexivity.
Qed.

Lemma records_hello : records_of hello_data = 16.
Proof.
  unfold records_of, hello_data. rewrite len_repeat_byte by lia.
  reflexivity.
Qed.

Lemma ascii_hello : ascii_str (pystr "HELLO.COM").
Proof. unfold ascii_str. repeat constructor; simpl; lia. Qed.

Lemma add_file_hello :
  add_file blank (pystr "HELLO.COM") hello_data = Ok out_hello.
Proof.
  unfold out_hello. rewrite (add_file_eq _ _ _ wf_blank).
  rewrite get_ok_Ok. reflexivity.
Qed.

Lemma alloc_blocks_hello : alloc_blocks blank hello_data = [2; 3].
Proof.
  unfold alloc_blocks. rewrite blocks_needed_hello, free_list_blank.
  reflexivity.
Qed.

Lemma claimed_slots_hello : claimed_slots blank hello_data = [0].
Proof.
  unfold claimed_slots. rewrite alloc_blocks_hello, empty_slots_blank.
  reflexivity.
Qed.

Lemma expected_status_hello : expected_status blank hello_data = Added.
Proof.
  unfold expected_status. rewrite alloc_blocks_hello.
  unfold free_count.
  rewrite blocks_needed_hello, free_list_blank, empty_slots_blank.
  reflexivity.
Qed.

Lemma out_hello_ret : ret out_hello = Added.
Proof.
  destruct (add_file_status blank (pystr "HELLO.COM") hello_data wf_blank)
    as (out & Hadd & Hret).
  rewrite add_file_hello in Hadd. apply Ok_inj in Hadd. subst out.
  rewrite Hret. exact expected_status_hello.
Qed.


(** ** What a successful add_file changes *)

Lemma index_ext {A} (l l' : list A) off :
  0 ≤ off → l !! Z.to_nat off = l' !! Z.to_nat off →
  index l off = index l' off.
Proof.
  intros Hoff Heq. unfold index.
  assert ((off <? 0) = false) as -> by lia. cbv zeta.
  assert ((off <? 0) = false) as -> by lia. by rewrite Heq.
Qed.

(** X5: a successful [add_file] keeps the size of the image and changes
    bytes only inside the blocks it got from [find_free_blocks] and inside
    the directory slots it claimed. In particular the reserved system area,
    every slot that was not marked empty and every block referenced by an
    occupied entry are left as they were. *)
Theorem add_file_frame disk filename data out :
  wf disk → ascii_str filename →
  add_file disk filename data = Ok out → ret out = Added →
  len (file out) = len disk ∧
  (∀ off, 0 ≤ off < DISK_SIZE →
     (∀ b, b ∈ alloc_blocks disk data → ¬ in_block off b) →
     (∀ s, s ∈ claimed_slots disk data → ¬ in_slot off s) →
     index (file out) off = index disk off) ∧
  (∀ off, 0 ≤ off < DIR_OFFSET → index (file out) off = index disk off) ∧
  (∀ s, 0 ≤ s < DIR_ENTRIES → status (entry_at disk s) ≠ EMPTY_ENTRY →
     entry_at (file out) s = entry_at disk s) ∧
  (∀ b, 2 ≤ b → b ∈ referenced disk →
     block_at (file out) b = block_at disk b).
Proof.
  intros Hwf _ Hadd Hret.
  destruct (add_file_Added_spec disk filename data out Hwf Hadd Hret)
    as (_ & _ & _ & Hwf' & _ & Hoth & _ & Hblk & Hfr).
  assert (∀ off, 0 ≤ off →
     (∀ b, b ∈ alloc_blocks disk data → ¬ in_block off b) →
     (∀ s, s ∈ claimed_slots disk data → ¬ in_slot off s) →
     index (file out) off = index disk off) as Hframe.
  { intros off Hoff Hb Hs. apply index_ext; [lia |].
    apply Hfr; intros x Hx; rewrite Z2Nat.id by lia; auto. }
  split; [unfold wf in *; congruence |].
  split; [intros off Hoff; apply Hframe; lia |].
  split; [| split].
  - intros off Hoff. apply Hframe; [lia | |].
    + intros b Hb. pose proof (alloc_blocks_range disk data) as Hr.
      rewrite Forall_forall in Hr. apply Hr in Hb.
      unfold in_block. geom. lia.
    + intros s (k & Hs & _)%elem_of_take.
      apply list_elem_of_lookup_2, elem_of_empty_slots in Hs.
      unfold in_slot. geom. lia.
  - intros s Hs Hst. apply Hoth; [done |].
    intros (k & Hin & _)%elem_of_take.
    apply list_elem_of_lookup_2, elem_of_empty_slots in Hin. tauto.
  - intros b Hb Href. apply Hblk; [done |].
    intros Hin. by apply alloc_blocks_free in Hin.
Qed.

Lemma add_file_frame_witness :
  wf blank ∧ ascii_str (pystr "HELLO.COM") ∧
  add_file blank (pystr "HELLO.COM") hello_data = Ok out_hello ∧
  ret out_hello = Added ∧
  len (file out_hello) = len blank ∧
  (∀ off, 0 ≤ off < DISK_SIZE →
     (∀ b, b ∈ alloc_blocks blank hello_data → ¬ in_block off b) →
     (∀ s, s ∈ claimed_slots blank hello_data → ¬ in_slot off s) →
     index (file out_hello) off = index blank off) ∧
  (∀ off, 0 ≤ off < DIR_OFFSET → index (file out_hello) off = index blank off) ∧
  (∀ s, 0 ≤ s < DIR_ENTRIES → status (entry_at blank s) ≠ EMPTY_ENTRY →
     entry_at (file out_hello) s = entry_at blank s) ∧
  (∀ b, 2 ≤ b → b ∈ referenced blank →
     block_at (file out_hello) b = block_at blank b).
Proof.
  split; [exact wf_blank |]. split; [exact ascii_hello |].
  split; [exact add_file_hello |]. split; [exact out_hello_ret |].
  exact (add_file_frame blank (pystr "HELLO.COM") hello_data out_hello
           wf_blank ascii_hello add_file_hello out_hello_ret).
Defined.

(** ** The entries and the data blocks of a stored file *)

Lemma extent_fields_small e :
  0 ≤ e < 32 → extent_low e = e ∧ extent_high e = 0.
Proof.
  intros He. unfold extent_low, extent_high.
  change 31 with (Z.ones 5). change 63 with (Z.ones 6).
  rewrite !Z.land_ones, Z.shiftr_div_pow2 by lia.
  change (2 ^ 5) with 32. change (2 ^ 6) with 64.
  rewrite (Z.div_small e 32) by lia. split; [| done].
  apply Z.mod_small. lia.
Qed.

Lemma len_alloc_blocks_le disk data :
  len (alloc_blocks disk data) ≤ TOTAL_BLOCKS - 2.
Proof.
  unfold alloc_blocks, len. rewrite length_take.
  assert (length (free_list disk) ≤ 245)%nat; [| geom; lia].
  unfold free_list. etransitivity; [apply length_filter |].
  unfold range. rewrite length_seqZ. geom. lia.
Qed.

Lemma len_extent_group free e :
  0 ≤ e → e * 16 ≤ len free →
  len (extent_group free e) = Z.min 16 (len free - e * 16).
Proof.
  intros He Hle. unfold extent_group. rewrite slice_take_drop by lia.
  unfold len in *. rewrite length_take, length_drop. lia.
Qed.

(** X6: after a successful [add_file] the extents of the file sit in the
    lowest slots that were empty, in ascending order, one per 16 blocks.
    Extent [k] has user 0, the 8 + 3 name bytes, extent number [k] (which
    its two fields decode to), the blocks 16k to 16k + 15 of the allocation
    followed by zeros, and record count [min(records - 128k, 128)]: every
    extent but the last has 16 blocks and 128 records, the last has the
    remaining blocks and records. *)
Theorem add_file_extents disk filename data out :
  wf disk → ascii_str filename →
  add_file disk filename data = Ok out → ret out = Added →
  let blocks := alloc_blocks disk data in
  let n := extent_count blocks in
  let rc := fun k => Z.min (records_of data - k * 128) 128 in
  len (claimed_slots disk data) = n ∧
  16 * n - 15 ≤ len blocks ∧ len blocks ≤ 16 * n ∧
  ∀ (k : nat) s, claimed_slots disk data !! k = Some s →
    status (entry_at disk s) = EMPTY_ENTRY ∧
    entry_at (file out) s =
      [0] ++ name_field filename ++ ext_field filename
          ++ [extent_low (Z.of_nat k); 0; extent_high (Z.of_nat k);
              rc (Z.of_nat k)]
          ++ extent_group blocks (Z.of_nat k)
          ++ replicate (16 - length (extent_group blocks (Z.of_nat k))) 0 ∧
    length (name_field filename) = 8%nat ∧
    length (ext_field filename) = 3%nat ∧
    extent_of (extent_low (Z.of_nat k)) (extent_high (Z.of_nat k))
      = Z.of_nat k ∧
    (Z.of_nat k + 1 < n →
       len (extent_group blocks (Z.of_nat k)) = 16 ∧ rc (Z.of_nat k) = 128) ∧
    (Z.of_nat k + 1 = n →
       len (extent_group blocks (Z.of_nat k)) = len blocks - 16 * Z.of_nat k ∧
       rc (Z.of_nat k) = records_of data - 128 * Z.of_nat k ∧
       0 ≤ rc (Z.of_nat k) ≤ 128).
Proof.
  intros Hwf _ Hadd Hret blocks n rc.
  destruct (add_file_Added_spec disk filename data out Hwf Hadd Hret)
    as (Hneed & Hslots & _ & _ & Hent & _).
  fold blocks in Hneed, Hslots, Hent. fold n in Hslots.
  pose proof (extent_count_bounds blocks) as Hcount. fold n in Hcount.
  pose proof (len_nonneg blocks) as Hlen0.
  pose proof (len_alloc_blocks disk data) as Hlen. fold blocks in Hlen.
  pose proof (len_alloc_blocks_le disk data) as Hmax. fold blocks in Hmax.
  pose proof (records_of_bounds data) as Hrec.
  pose proof (blocks_needed_of_bounds data) as Hblk.
  pose proof (len_nonneg data) as Hdata.
  split; [done |]. split; [lia |]. split; [lia |].
  intros k s Hs. apply lookup_lt_Some in Hs as Hk.
  assert (Z.of_nat k < n) as Hkn by (unfold len in Hslots; lia).
  assert (Z.of_nat k * 16 < len blocks) as Hk16 by lia.
  split.
  { apply lookup_take_Some in Hs as [Hs _].
    apply list_elem_of_lookup_2, elem_of_empty_slots in Hs. tauto. }
  split; [by apply Hent |].
  split; [apply length_name_field |]. split; [apply length_ext_field |].
  split.
  { geom. destruct (extent_fields_small (Z.of_nat k)) as [-> ->]; [lia |].
    unfold extent_of. by rewrite Z.shiftl_0_l, Z.add_0_r. }
  rewrite len_extent_group by lia. unfold rc.
  split; intros Hlast; repeat split; lia.
Qed.

Lemma add_file_extents_witness :
  wf blank ∧ ascii_str (pystr "HELLO.COM") ∧
  add_file blank (pystr "HELLO.COM") hello_data = Ok out_hello ∧
  ret out_hello = Added ∧
  let blocks := alloc_blocks blank hello_data in
  let n := extent_count blocks in
  let rc := fun k => Z.min (records_of hello_data - k * 128) 128 in
  len (claimed_slots blank hello_data) = n ∧
  16 * n - 15 ≤ len blocks ∧ len blocks ≤ 16 * n ∧
  ∀ (k : nat) s, claimed_slots blank hello_data !! k = Some s →
    status (entry_at blank s) = EMPTY_ENTRY ∧
    entry_at (file out_hello) s =
      [0] ++ name_field (pystr "HELLO.COM") ++ ext_field (pystr "HELLO.COM")
          ++ [extent_low (Z.of_nat k); 0; extent_high (Z.of_nat k);
              rc (Z.of_nat k)]
          ++ extent_group blocks (Z.of_nat k)
          ++ replicate (16 - length (extent_group blocks (Z.of_nat k))) 0 ∧
    length (name_field (pystr "HELLO.COM")) = 8%nat ∧
    length (ext_field (pystr "HELLO.COM")) = 3%nat ∧
    extent_of (extent_low (Z.of_nat k)) (extent_high (Z.of_nat k))
      = Z.of_nat k ∧
    (Z.of_nat k + 1 < n →
       len (extent_group blocks (Z.of_nat k)) = 16 ∧ rc (Z.of_nat k) = 128) ∧
    (Z.of_nat k + 1 = n →
       len (extent_group blocks (Z.of_nat k)) = len blocks - 16 * Z.of_nat k ∧
       rc (Z.of_nat k) = records_of hello_data - 128 * Z.of_nat k ∧
       0 ≤ rc (Z.of_nat k) ≤ 128).
Proof.
  split; [exact wf_blank |]. split; [exact ascii_hello |].
  split; [exact add_file_hello |]. split; [exact out_hello_ret |].
  exact (add_file_extents blank (pystr "HELLO.COM") hello_data out_hello
           wf_blank ascii_hello add_file_hello out_hello_ret).
Defined.

Lemma block_chunk_eq data (n : nat) :
  block_chunk data (Z.of_nat n) =
    take 1024 (drop (n * 1024) data)
      ++ replicate (1024 - length (take 1024 (drop (n * 1024) data))) 26.
Proof.
  unfold block_chunk. geom. cbv zeta. pose proof (len_nonneg data) as Hd.
  rewrite slice_take_drop by lia.
  replace (Z.to_nat (Z.of_nat n * 1024)) with (n * 1024)%nat by lia.
  set (rest := drop (n * 1024) data).
  assert (length rest = length data - n * 1024)%nat as Hrest
    by (subst rest; apply length_drop).
  assert (take (Z.to_nat (Z.min (Z.of_nat n * 1024 + 1024) (len data)
                          - Z.of_nat n * 1024)) rest = take 1024 rest) as ->.
  { unfold len in *.
    destruct (decide (length rest ≤ 1024)%nat).
    - rewrite !take_ge; (done || lia).
    - f_equal. lia. }
  destruct (Z.ltb_spec (len (take 1024 rest)) 1024) as [Hlt | Hge].
  - unfold repeat_byte, len. do 2 f_equal. lia.
  - unfold len in Hge.
    replace (1024 - length (take 1024 rest))%nat with 0%nat by lia.
    by rewrite app_nil_r.
Qed.

Lemma concat_chunks data (n : nat) :
  concat (block_chunk data <$> range 0 (Z.of_nat n)) =
    take (n * 1024) data
      ++ replicate (n * 1024 - length (take (n * 1024) data)) 26.
Proof.
  induction n as [| n IH]; [done |].
  unfold range in *. rewrite Z.sub_0_r in *.
  rewrite seqZ_S, fmap_app, concat_app, IH.
  change (block_chunk data <$> [0 + Z.of_nat n])
    with [block_chunk data (Z.of_nat n)].
  rewrite concat_cons, concat_nil, app_nil_r, block_chunk_eq.
  rewrite !length_take, length_drop.
  set (m := (n * 1024)%nat). set (L := length data).
  replace (S n * 1024)%nat with (m + 1024)%nat by lia.
  destruct (decide (m + 1024 ≤ L)%nat) as [Hfull | Hpart].
  - replace (m - m `min` L)%nat with 0%nat by lia.
    replace (1024 - 1024 `min` (L - m))%nat with 0%nat by lia.
    replace (m + 1024 - (m + 1024) `min` L)%nat with 0%nat by lia.
    change (replicate 0 26) with (@nil Z).
    by rewrite !app_nil_r, take_take_drop.
  - destruct (decide (m ≤ L)%nat) as [Hin | Hout].
    + replace (m - m `min` L)%nat with 0%nat by lia.
      change (replicate 0 26) with (@nil Z).
      rewrite app_nil_r, app_assoc, take_take_drop.
      do 2 f_equal. lia.
    + rewrite !(take_ge data) by lia.
      rewrite (drop_ge data) by lia. rewrite take_nil, app_nil_l.
      rewrite <- app_assoc. f_equal.
      replace (m `min` L)%nat with L by lia.
      replace ((m + 1024) `min` L)%nat with L by lia.
      replace (1024 - 1024 `min` (L - m))%nat with 1024%nat by lia.
      rewrite <- replicate_add. f_equal. lia.
Qed.

Lemma fmap_block_chunk (f : Z → list Z) data (blocks : list Z) :
  (∀ (k : nat) b, blocks !! k = Some b → f b = block_chunk data (Z.of_nat k)) →
  f <$> blocks = block_chunk data <$> range 0 (len blocks).
Proof.
  intros Hf. apply list_eq. intros k. rewrite !list_lookup_fmap.
  destruct (blocks !! k) as [b |] eqn:Hb; simpl.
  - apply lookup_lt_Some in Hb as Hk.
    rewrite lookup_range by (unfold len; lia). simpl.
    by rewrite (Hf k b Hb), Z.add_0_l.
  - apply lookup_ge_None in Hb.
    rewrite (lookup_ge_None_2 (range 0 (len blocks))); [done |].
    unfold range, len. rewrite length_seqZ. lia.
Qed.

(** X7: after a successful [add_file] the [k]-th allocated block holds the
    bytes [1024k .. 1024k + 1023] of the data, the last block being filled
    up with 0x1A; read in allocation order the blocks give the data
    followed by 0x1A bytes only. *)
Theorem add_file_data_blocks disk filename data out :
  wf disk → ascii_str filename →
  add_file disk filename data = Ok out → ret out = Added →
  let blocks := alloc_blocks disk data in
  len data ≤ len blocks * BLOCK_SIZE ∧
  (∀ (k : nat) b, blocks !! k = Some b →
     block_at (file out) b = block_chunk data (Z.of_nat k) ∧
     len (block_at (file out) b) = BLOCK_SIZE) ∧
  concat (block_at (file out) <$> blocks) =
    data ++ repeat_byte EOF_BYTE (len blocks * BLOCK_SIZE - len data).
Proof.
  intros Hwf _ Hadd Hret blocks.
  destruct (add_file_Added_spec disk filename data out Hwf Hadd Hret)
    as (Hneed & _ & _ & _ & _ & _ & Hblk & _).
  fold blocks in Hneed, Hblk.
  pose proof (blocks_needed_of_bounds data) as Hbound.
  assert (len data ≤ len blocks * BLOCK_SIZE) as Hlen by (geom; lia).
  split; [done |]. split.
  { intros k b Hb. rewrite (Hblk k b Hb). split; [done |].
    apply len_block_chunk. lia. }
  rewrite (fmap_block_chunk _ data blocks Hblk).
  unfold len at 1. rewrite concat_chunks. geom. unfold len in *.
  rewrite take_ge by lia. unfold repeat_byte. do 2 f_equal. lia.
Qed.

Lemma add_file_data_blocks_witness :
  wf blank ∧ ascii_str (pystr "HELLO.COM") ∧
  add_file blank (pystr "HELLO.COM") hello_data = Ok out_hello ∧
  ret out_hello = Added ∧
  let blocks := alloc_blocks blank hello_data in
  len hello_data ≤ len blocks * BLOCK_SIZE ∧
  (∀ (k : nat) b, blocks !! k = Some b →
     block_at (file out_hello) b = block_chunk hello_data (Z.of_nat k) ∧
     len (block_at (file out_hello) b) = BLOCK_SIZE) ∧
  concat (block_at (file out_hello) <$> blocks) =
    hello_data ++ repeat_byte EOF_BYTE (len blocks * BLOCK_SIZE - len hello_data).
Proof.
  split; [exact wf_blank |]. split; [exact ascii_hello |].
  split; [exact add_file_hello |]. split; [exact out_hello_ret |].
  exact (add_file_data_blocks blank (pystr "HELLO.COM") hello_data out_hello
           wf_blank ascii_hello add_file_hello out_hello_ret).
Defined.

(** ** The blocks referenced by the directory *)

Lemma referenced_ext disk disk' :
  (∀ i, 0 ≤ i < DIR_ENTRIES → entry_at disk' i = entry_at disk i) →
  referenced disk' = referenced disk.
Proof.
  intros Hext. unfold referenced. f_equal. apply list_fmap_ext.
  intros k i Hi. apply list_elem_of_lookup_2, elem_of_range in Hi.
  unfold slot_refs. by rewrite Hext by lia.
Qed.

Lemma occupied_empty entry :
  status entry = EMPTY_ENTRY → occupied entry = false.
Proof. intros Hst. unfold occupied. by rewrite Hst. Qed.

Lemma referenced_put_entry disk s entry :
  wf disk → 0 ≤ s < DIR_ENTRIES → length entry = 32%nat →
  status (entry_at disk s) = EMPTY_ENTRY → occupied entry = true →
  referenced (put_entry disk s entry) ≡ₚ entry_refs entry ++ referenced disk.
Proof.
  intros Hwf Hs Hlen Hst Hocc. unfold referenced.
  rewrite (range_split 0 s DIR_ENTRIES), (range_cons s) by lia.
  rewrite !fmap_app, !fmap_cons, !concat_app, !concat_cons.
  assert (∀ l, Forall (fun i => 0 ≤ i ∧ i ≠ s) l →
            slot_refs (put_entry disk s entry) <$> l = slot_refs disk <$> l)
    as Hsame.
  { intros l Hl. apply list_fmap_ext. intros k i Hi.
    apply list_elem_of_lookup_2 in Hi. rewrite Forall_forall in Hl.
    destruct (Hl i Hi). unfold slot_refs.
    by rewrite entry_at_put_entry_ne. }
  rewrite !Hsame
    by (apply Forall_forall; intros i Hi%elem_of_range; lia).
  unfold slot_refs at 2 5.
  rewrite entry_at_put_entry, Hocc, (occupied_empty _ Hst) by done.
  rewrite app_nil_l. apply Permutation_app_swap_app.
Qed.

Lemma referenced_fill entries : ∀ slots disk,
  wf disk → NoDup slots → Forall (fun s => 0 ≤ s < DIR_ENTRIES) slots →
  Forall (fun s => status (entry_at disk s) = EMPTY_ENTRY) slots →
  Forall (fun E => length E = 32%nat ∧ occupied E = true) entries →
  (length entries ≤ length slots)%nat →
  referenced (fill disk slots entries).1
    ≡ₚ concat (entry_refs <$> entries) ++ referenced disk.
Proof.
  induction entries as [| E es IH];
    intros slots disk Hwf Hnd Hr Hst HE Hlen; [done |].
  destruct slots as [| s ss]; [simpl in Hlen; lia |]. simpl.
  apply NoDup_cons in Hnd as [Hs Hnd].
  apply Forall_cons in Hr as [Hsr Hr]. apply Forall_cons in Hst as [Hss Hst].
  apply Forall_cons in HE as [[HlE HoE] HE]. simpl in Hlen.
  rewrite IH; try done; try lia.
  - rewrite referenced_put_entry by done.
    rewrite <- !app_assoc. apply Permutation_app_swap_app.
  - by apply wf_put_entry.
  - rewrite Forall_forall in Hst, Hr. apply Forall_forall. intros i Hi.
    specialize (Hr i Hi).
    rewrite entry_at_put_entry_ne; [by apply Hst | done .. | lia |].
    by intros ->.
Qed.

Lemma extent_group_eq free (n : nat) :
  extent_group free (Z.of_nat n) = take 16 (drop (n * 16) free).
Proof.
  unfold extent_group. rewrite slice_take_drop by lia. f_equal; [lia |].
  f_equal. lia.
Qed.

Lemma concat_groups free (n : nat) :
  concat (extent_group free <$> range 0 (Z.of_nat n)) = take (n * 16) free.
Proof.
  induction n as [| n IH]; [done |].
  unfold range in *. rewrite Z.sub_0_r in *.
  rewrite seqZ_S, fmap_app, concat_app, IH.
  change (extent_group free <$> [0 + Z.of_nat n])
    with [extent_group free (Z.of_nat n)].
  rewrite concat_cons, concat_nil, app_nil_r, extent_group_eq.
  rewrite take_take_drop. f_equal. lia.
Qed.

Lemma concat_file_entries disk filename data :
  concat (entry_refs <$> file_entries disk filename data) =
    alloc_blocks disk data.
Proof.
  unfold file_entries. rewrite <- list_fmap_compose.
  pose proof (extent_count_nonneg (alloc_blocks disk data)) as Hn.
  pose proof (extent_count_bounds (alloc_blocks disk data)) as Hb.
  assert (entry_refs ∘ the_entry (name_field filename) (ext_field filename)
                         (records_of data) (alloc_blocks disk data)
            <$> range 0 (extent_count (alloc_blocks disk data))
          = extent_group (alloc_blocks disk data)
              <$> range 0 (extent_count (alloc_blocks disk data))) as ->.
  { apply list_fmap_ext. intros k e He.
    apply list_elem_of_lookup_2, elem_of_range in He. simpl.
    apply entry_refs_the_entry;
      [apply length_name_field | apply length_ext_field | lia |].
    eapply Forall_impl; [apply alloc_blocks_range |]. simpl. lia. }
  rewrite <- (Z2Nat.id (extent_count _)) by done.
  rewrite concat_groups. apply take_ge. unfold len in *. lia.
Qed.

Lemma add_file_Added_fill disk filename data out :
  wf disk → add_file disk filename data = Ok out → ret out = Added →
  file out =
    (fill (write_blocks disk data (alloc_blocks disk data) 0)
          (empty_slots disk) (file_entries disk filename data)).1 ∧
  extent_count (alloc_blocks disk data) ≤ len (empty_slots disk).
Proof.
  intros Hwf Hadd Hret.
  destruct (add_file_status disk filename data Hwf) as (out' & Hadd' & Hst).
  rewrite Hadd in Hadd'. apply Ok_inj in Hadd'. subst out'.
  rewrite Hret in Hst. unfold expected_status in Hst.
  destruct (Z.ltb_spec (free_count disk) (blocks_needed_of data));
    [discriminate |].
  destruct (Z.leb_spec (extent_count (alloc_blocks disk data))
              (len (empty_slots disk))) as [Hle |]; [| discriminate].
  split; [| done].
  rewrite add_file_eq, add_spec_eq in Hadd by done. apply Ok_inj in Hadd.
  destruct (_ <? _); [subst out; discriminate |]. cbv zeta in Hadd.
  destruct (fill _ _ _) as [d2 [|]]; subst out; [done | discriminate].
Qed.

Lemma referenced_add_file disk filename data out :
  wf disk → add_file disk filename data = Ok out → ret out = Added →
  referenced (file out) ≡ₚ alloc_blocks disk data ++ referenced disk.
Proof.
  intros Hwf Hadd Hret.
  destruct (add_file_Added_fill disk filename data out Hwf Hadd Hret)
    as [-> Hle].
  destruct (write_blocks_spec data (alloc_blocks disk data) disk 0 Hwf
              ltac:(lia) (alloc_blocks_range disk data)
              (NoDup_alloc_blocks disk data)) as (Hwf1 & Hdir1 & _).
  rewrite referenced_fill.
  - by rewrite concat_file_entries, (referenced_ext disk).
  - done.
  - apply NoDup_empty_slots.
  - apply empty_slots_range.
  - apply Forall_forall. intros s Hs%elem_of_empty_slots.
    rewrite Hdir1; tauto.
  - unfold file_entries. apply Forall_fmap, Forall_forall.
    intros e He%elem_of_range. simpl. split; [| done].
    apply length_the_entry;
      [apply length_name_field | apply length_ext_field | lia].
  - rewrite length_file_entries.
    pose proof (extent_count_nonneg (alloc_blocks disk data)).
    unfold len in *. lia.
Qed.

Lemma filter_not_take {A} `{EqDecision A} (l : list A) n :
  NoDup l → filter (fun x => x ∉ take n l) l = drop n l.
Proof.
  intros Hnd. rewrite <- (take_drop n l) in Hnd.
  apply NoDup_app in Hnd as (_ & Hdis & _).
  assert (filter (fun x => x ∉ take n l) (take n l ++ drop n l) = drop n l)
    as Hf; [| by rewrite take_drop in Hf].
  rewrite filter_app, filter_none, filter_all; [done | |].
  - intros x Hx Hin. by apply (Hdis x).
  - intros x Hx Hnot. by apply Hnot.
Qed.

Lemma free_list_add_file disk filename data out :
  wf disk → add_file disk filename data = Ok out → ret out = Added →
  free_list (file out) = drop (length (alloc_blocks disk data)) (free_list disk).
Proof.
  intros Hwf Hadd Hret.
  pose proof (referenced_add_file disk filename data out Hwf Hadd Hret)
    as Hperm.
  unfold free_list at 1.
  rewrite (list_filter_iff _
             (fun b => b ∉ alloc_blocks disk data ∧ b ∉ referenced disk)).
  2: { intros b. rewrite Hperm, elem_of_app. tauto. }
  rewrite <- list_filter_filter. fold (free_list disk).
  unfold alloc_blocks. rewrite filter_not_take by apply NoDup_free_list.
  rewrite length_take.
  destruct (decide (Z.to_nat (Z.max 1 (blocks_needed_of data))
                    ≤ length (free_list disk))%nat).
  - by rewrite Nat.min_l.
  - rewrite Nat.min_r by lia. rewrite !drop_ge; (done || lia).
Qed.

Lemma status_add_file disk filename data out s :
  wf disk → add_file disk filename data = Ok out → ret out = Added →
  0 ≤ s < DIR_ENTRIES →
  status (entry_at (file out) s) =
    if decide (s ∈ claimed_slots disk data) then 0
    else status (entry_at disk s).
Proof.
  intros Hwf Hadd Hret Hs.
  destruct (add_file_Added_spec disk filename data out Hwf Hadd Hret)
    as (_ & _ & _ & _ & Hent & Hoth & _).
  case_decide as Hin.
  - apply list_elem_of_lookup_1 in Hin as [k Hk]. by rewrite (Hent k s Hk).
  - by rewrite Hoth.
Qed.

Lemma empty_slots_add_file disk filename data out :
  wf disk → add_file disk filename data = Ok out → ret out = Added →
  empty_slots (file out) =
    drop (Z.to_nat (extent_count (alloc_blocks disk data))) (empty_slots disk).
Proof.
  intros Hwf Hadd Hret. unfold empty_slots at 1.
  rewrite (filter_ext_in _
             (fun s => s ∉ claimed_slots disk data ∧
                       status (entry_at disk s) = EMPTY_ENTRY)).
  2: { intros s Hs%elem_of_range.
       rewrite (status_add_file disk filename data out s) by done.
       case_decide as Hin; [| tauto]. split; [discriminate | tauto]. }
  rewrite <- list_filter_filter. fold (empty_slots disk).
  unfold claimed_slots. apply filter_not_take, NoDup_empty_slots.
Qed.

(** X8: a successful [add_file] adds exactly the blocks it allocated to the
    blocks referenced by the directory (each once), and none of them was
    referenced before; so if no block was referenced twice before the call,
    none is after it. *)
Theorem add_file_referenced disk filename data out :
  wf disk → ascii_str filename →
  add_file disk filename data = Ok out → ret out = Added →
  referenced (file out) ≡ₚ alloc_blocks disk data ++ referenced disk ∧
  NoDup (alloc_blocks disk data) ∧
  (∀ b, b ∈ alloc_blocks disk data →
     2 ≤ b < TOTAL_BLOCKS ∧ b ∉ referenced disk) ∧
  (NoDup (referenced disk) → NoDup (referenced (file out))).
Proof.
  intros Hwf _ Hadd Hret.
  pose proof (referenced_add_file disk filename data out Hwf Hadd Hret)
    as Hperm.
  split; [done |]. split; [apply NoDup_alloc_blocks |]. split.
  - intros b Hb. split; [| by apply alloc_blocks_free in Hb].
    pose proof (alloc_blocks_range disk data) as Hr.
    rewrite Forall_forall in Hr. apply Hr in Hb. lia.
  - intros Hnd. rewrite Hperm. apply NoDup_app.
    split; [apply NoDup_alloc_blocks |]. split; [| done].
    intros b Hb. by apply alloc_blocks_free in Hb.
Qed.

Lemma add_file_referenced_witness :
  wf blank ∧ ascii_str (pystr "HELLO.COM") ∧
  add_file blank (pystr "HELLO.COM") hello_data = Ok out_hello ∧
  ret out_hello = Added ∧
  referenced (file out_hello) ≡ₚ alloc_blocks blank hello_data ++ referenced blank ∧
  NoDup (alloc_blocks blank hello_data) ∧
  (∀ b, b ∈ alloc_blocks blank hello_data →
     2 ≤ b < TOTAL_BLOCKS ∧ b ∉ referenced blank) ∧
  (NoDup (referenced blank) → NoDup (referenced (file out_hello))).
Proof.
  split; [exact wf_blank |]. split; [exact ascii_hello |].
  split; [exact add_file_hello |]. split; [exact out_hello_ret |].
  exact (add_file_referenced blank (pystr "HELLO.COM") hello_data out_hello
           wf_blank ascii_hello add_file_hello out_hello_ret).
Defined.

(** X9: a successful [add_file] takes the lowest [max(1, blocks_needed)]
    free blocks off the free list (one block even for an empty file, and as
    many as are free if fewer) and the lowest empty slots, one per 16
    blocks, off the empty slots. *)
Theorem add_file_accounting disk filename data out :
  wf disk → ascii_str filename →
  add_file disk filename data = Ok out → ret out = Added →
  let used := Z.min (Z.max 1 (blocks_needed_of data)) (free_count disk) in
  free_list disk = alloc_blocks disk data ++ free_list (file out) ∧
  free_count (file out) = free_count disk - used ∧
  empty_slots disk = claimed_slots disk data ++ empty_slots (file out) ∧
  len (empty_slots (file out)) = len (empty_slots disk) - (used + 15) / 16.
Proof.
  intros Hwf _ Hadd Hret used.
  pose proof (free_list_add_file disk filename data out Hwf Hadd Hret) as Hfl.
  pose proof (empty_slots_add_file disk filename data out Hwf Hadd Hret)
    as Hes.
  pose proof (len_alloc_blocks disk data) as Hlen. fold used in Hlen.
  destruct (add_file_Added_fill disk filename data out Hwf Hadd Hret)
    as [_ Hle].
  pose proof (extent_count_nonneg (alloc_blocks disk data)) as Hn.
  assert (extent_count (alloc_blocks disk data) = (used + 15) / 16) as Hcount
    by (unfold extent_count; by rewrite Hlen).
  split; [| split; [| split]].
  - rewrite Hfl. unfold alloc_blocks.
    set (m := Z.to_nat (Z.max 1 (blocks_needed_of data))).
    destruct (decide (m ≤ length (free_list disk))%nat).
    + rewrite length_take, Nat.min_l by done. by rewrite take_drop.
    + rewrite take_ge by lia. rewrite drop_ge by lia. by rewrite app_nil_r.
  - unfold free_count at 1. rewrite Hfl. unfold len in *.
    rewrite length_drop. unfold free_count, len in *.
    unfold alloc_blocks in *. rewrite length_take in *. lia.
  - rewrite Hes. unfold claimed_slots. by rewrite take_drop.
  - rewrite Hes. unfold len in *. rewrite length_drop. lia.
Qed.

Lemma add_file_accounting_witness :
  wf blank ∧ ascii_str (pystr "HELLO.COM") ∧
  add_file blank (pystr "HELLO.COM") hello_data = Ok out_hello ∧
  ret out_hello = Added ∧
  let used := Z.min (Z.max 1 (blocks_needed_of hello_data)) (free_count blank) in
  free_list blank = alloc_blocks blank hello_data ++ free_list (file out_hello) ∧
  free_count (file out_hello) = free_count blank - used ∧
  empty_slots blank = claimed_slots blank hello_data ++ empty_slots (file out_hello) ∧
  len (empty_slots (file out_hello)) = len (empty_slots blank) - (used + 15) / 16.
Proof.
  split; [exact wf_blank |]. split; [exact ascii_hello |].
  split; [exact add_file_hello |]. split; [exact out_hello_ret |].
  exact (add_file_accounting blank (pystr "HELLO.COM") hello_data out_hello
           wf_blank ascii_hello add_file_hello out_hello_ret).
Defined.

Lemma create_disk_blank : create_disk = Ok blank.
Proof. rewrite blank_eq. exact create_disk_eq. Qed.

(** X10: every image the tool produces (by [create_disk], then by any
    number of successful [add_file] calls with ASCII names) has the size of
    the geometry; no block number is referenced twice by its occupied
    entries and every referenced number lies in 2..246; each slot is either
    empty (0xE5) or belongs to user 0; and each of the 245 blocks is either
    free or referenced. *)
Theorem reachable_invariant disk :
  reachable disk →
  wf disk ∧ NoDup (referenced disk) ∧
  Forall (fun b => 2 ≤ b < TOTAL_BLOCKS) (referenced disk) ∧
  (∀ s, 0 ≤ s < DIR_ENTRIES →
     status (entry_at disk s) = EMPTY_ENTRY ∨ status (entry_at disk s) = 0) ∧
  free_count disk + len (referenced disk) = TOTAL_BLOCKS - 2.
Proof.
  induction 1 as [disk Hcreate | disk filename data out Hreach IH Hascii Hadd Hret].
  - rewrite create_disk_blank in Hcreate. apply Ok_inj in Hcreate.
    subst disk. split; [exact wf_blank |].
    rewrite referenced_blank, free_count_blank.
    split; [apply NoDup_nil_2 |]. split; [apply Forall_nil_2 |].
    split; [| reflexivity].
    intros s Hs. left. rewrite (entry_at_blank s Hs). reflexivity.
  - destruct IH as (Hwf & Hnd & Hrange & Hst & Hcount).
    pose proof (referenced_add_file disk filename data out Hwf Hadd Hret)
      as Hperm.
    destruct (add_file_Added_spec disk filename data out Hwf Hadd Hret)
      as (_ & _ & _ & Hwf' & _).
    split; [done |]. split; [| split; [| split]].
    + rewrite Hperm. apply NoDup_app.
      split; [apply NoDup_alloc_blocks |]. split; [| done].
      intros b Hb. by apply alloc_blocks_free in Hb.
    + apply Forall_forall. intros b Hb. rewrite Hperm in Hb.
      apply elem_of_app in Hb as [Hb | Hb].
      * pose proof (alloc_blocks_range disk data) as Hr.
        rewrite Forall_forall in Hr. apply Hr in Hb. lia.
      * rewrite Forall_forall in Hrange. by apply Hrange.
    + intros s Hs.
      rewrite (status_add_file disk filename data out s) by done.
      case_decide; [by right | by apply Hst].
    + unfold free_count in *.
      rewrite (free_list_add_file disk filename data out) by done.
      apply Permutation_length in Hperm. unfold len in *.
      rewrite Hperm, length_app, length_drop.
      unfold alloc_blocks in *. rewrite length_take in *. lia.
Qed.

Lemma reachable_hello : reachable (file out_hello).
Proof.
  exact (reach_added blank (pystr "HELLO.COM") hello_data out_hello
           (reach_created blank create_disk_blank) ascii_hello
           add_file_hello out_hello_ret).
Qed.

Lemma reachable_invariant_witness :
  reachable (file out_hello) ∧
  wf (file out_hello) ∧ NoDup (referenced (file out_hello)) ∧
  Forall (fun b => 2 ≤ b < TOTAL_BLOCKS) (referenced (file out_hello)) ∧
  (∀ s, 0 ≤ s < DIR_ENTRIES →
     status (entry_at (file out_hello) s) = EMPTY_ENTRY ∨
     status (entry_at (file out_hello) s) = 0) ∧
  free_count (file out_hello) + len (referenced (file out_hello))
    = TOTAL_BLOCKS - 2.
Proof.
  split; [exact reachable_hello |].
  exact (reachable_invariant (file out_hello) reachable_hello).
Defined.

(** ** extract_file: the strip of trailing 0x1A bytes *)

Lemma strip_eof_snoc data x :
  strip_eof (data ++ [x]) =
    if x =? EOF_BYTE then strip_eof data else data ++ [x].
Proof.
  induction data as [| y rest IH]; simpl.
  - by destruct (x =? EOF_BYTE).
  - rewrite IH. destruct (x =? EOF_BYTE); [done |].
    by destruct rest.
Qed.

Lemma strip_eof_app_eof data n :
  strip_eof (data ++ replicate n EOF_BYTE) = strip_eof data.
Proof.
  induction n as [| n IH]; [by rewrite app_nil_r |].
  rewrite replicate_S_end, app_assoc, strip_eof_snoc.
  by rewrite Z.eqb_refl.
Qed.

Lemma strip_eof_idemp data : strip_eof (strip_eof data) = strip_eof data.
Proof.
  induction data as [| x rest IH] using rev_ind; [done |].
  rewrite strip_eof_snoc. destruct (x =? EOF_BYTE) eqn:Hx; [done |].
  by rewrite strip_eof_snoc, Hx.
Qed.

Lemma strip_eof_spec data :
  ∃ n, data = strip_eof data ++ replicate n EOF_BYTE ∧
       last (strip_eof data) ≠ Some EOF_BYTE.
Proof.
  induction data as [| x rest IH] using rev_ind.
  { exists 0%nat. by split. }
  rewrite strip_eof_snoc. destruct (Z.eqb_spec x EOF_BYTE) as [-> | Hx].
  - destruct IH as (n & Hn & Hlast). exists (S n). split; [| done].
    rewrite replicate_S_end, app_assoc. by rewrite <- Hn.
  - exists 0%nat. split; [by rewrite app_nil_r |].
    rewrite last_snoc. by intros [= ->].
Qed.

Lemma index_last {A} (l : list A) x : index (l ++ [x]) (-1) = Ok x.
Proof.
  unfold index. simpl. rewrite len_app, len_cons. change (len []) with 0.
  pose proof (len_nonneg l).
  assert ((-1 + (len l + (1 + 0)) <? 0) = false) as -> by lia.
  replace (Z.to_nat (-1 + (len l + (1 + 0)))) with (length l)
    by (unfold len; lia).
  by rewrite lookup_app_r, Nat.sub_diag by lia.
Qed.

Lemma slice_init {A} (l : list A) x : slice (l ++ [x]) 0 (-1) = l.
Proof.
  unfold slice, clamp. simpl. rewrite len_app, len_cons. change (len []) with 0.
  pose proof (len_nonneg l).
  rewrite Z.min_l, Z.max_r by lia. rewrite drop_0, Z.sub_0_r.
  replace (Z.to_nat (-1 + (len l + (1 + 0)))) with (length l)
    by (unfold len; lia).
  by rewrite take_app_length.
Qed.

Lemma strip_loop_eq fuel : ∀ data,
  (length data ≤ fuel)%nat → strip_loop fuel data = Ok (strip_eof data).
Proof.
  induction fuel as [| fuel IH]; intros data Hlen.
  - destruct data; [done | simpl in Hlen; lia].
  - destruct data as [| x rest _] using rev_ind; [done |].
    assert (∃ y tail, rest ++ [x] = y :: tail) as (y & tail & Hcons)
      by (destruct rest; simpl; eauto).
    rewrite strip_eof_snoc. unfold strip_loop; fold strip_loop.
    rewrite Hcons at 1. rewrite index_last, bind_Ok, slice_init.
    destruct (x =? EOF_BYTE); [| done].
    apply IH. rewrite length_app in Hlen. simpl in Hlen. lia.
Qed.

(** ** extract_file: the scan of the directory *)

Lemma omap_list_app {A B} (f : A → option B) (l k : list A) :
  omap f (l ++ k) = omap f l ++ omap f k.
Proof.
  induction l as [| x l IH]; [done |]. simpl.
  destruct (f x); simpl; [f_equal |]; exact IH.
Qed.

Lemma omap_singleton {A B} (f : A → option B) (x : A) :
  omap f [x] = match f x with Some y => [y] | None => [] end.
Proof. simpl. by destruct (f x). Qed.

Lemma index_entry_byte (entry : list Z) (k : nat) :
  length entry = 32%nat → (k < 32)%nat →
  index entry (Z.of_nat k) = Ok (entry_byte entry k).
Proof.
  intros Hlen Hk. destruct (index_entry entry k Hlen Hk) as (x & Hx & ->).
  unfold entry_byte. by rewrite Hx.
Qed.

Lemma entry_blocks_eq entry :
  length entry = 32%nat → entry_blocks entry = Ok (entry_refs entry).
Proof.
  intros Hlen. unfold entry_blocks.
  fold_inv (fun (k : nat) (acc : list Z) =>
              acc = filter (fun b => 0 < b) (take k (drop 16 entry))).
  - by rewrite take_0.
  - intros k x acc Hx ->.
    apply lookup_lt_Some in Hx as Hk.
    unfold range in Hk. rewrite length_seqZ in Hk.
    rewrite lookup_range in Hx by lia. injection Hx as <-.
    destruct (index_entry entry (16 + k) Hlen) as (blk & Hblk & Hidx); [lia |].
    replace (16 + (0 + Z.of_nat k)) with (Z.of_nat (16 + k)) by lia.
    rewrite Hidx, bind_Ok.
    rewrite (take_S_r _ _ blk) by (by rewrite lookup_drop).
    rewrite filter_app, filter_cons, filter_nil.
    destruct (Z.ltb_spec 0 blk); case_decide; try lia.
    + rewrite bind_Ok. eauto.
    + rewrite app_nil_r. eauto.
  - subst acc. unfold range. rewrite length_seqZ. f_equal. unfold entry_refs.
    rewrite take_ge; [done |]. rewrite length_drop. lia.
Qed.

Lemma find_extents_eq disk tname text :
  wf disk →
  find_extents disk tname text =
    Ok (omap (slot_extent disk tname text) (range 0 DIR_ENTRIES)).
Proof.
  intros Hwf. unfold find_extents.
  fold_inv (fun (k : nat) (acc : list (Z * Z * list Z)) =>
              acc = omap (slot_extent disk tname text)
                         (take k (range 0 DIR_ENTRIES))).
  - by rewrite take_0.
  - intros k x acc Hx ->.
    apply lookup_lt_Some in Hx as Hk.
    unfold range in Hk. rewrite length_seqZ in Hk.
    rewrite (take_S_r _ _ x) by done. rewrite omap_list_app.
    rewrite lookup_range in Hx by lia. injection Hx as <-.
    cbv zeta. fold (entry_at disk (0 + Z.of_nat k)).
    set (i := 0 + Z.of_nat k).
    assert (0 ≤ i < DIR_ENTRIES) as Hi by (subst i; geom; lia).
    pose proof (length_entry_at disk i Hwf Hi) as Hlen.
    rewrite (index_status _ Hlen), bind_Ok.
    set (acc0 := omap (slot_extent disk tname text)
                      (take k (range 0 DIR_ENTRIES))).
    rewrite omap_singleton.
    unfold slot_extent. cbv zeta. unfold occupied.
    fold (entry_name (entry_at disk i)). fold (entry_ext (entry_at disk i)).
    destruct (status (entry_at disk i) =? EMPTY_ENTRY) eqn:He; simpl.
    { rewrite app_nil_r. eauto. }
    destruct (15 <? status (entry_at disk i)) eqn:Hhi,
      (status (entry_at disk i) <=? 15) eqn:Hlo; try lia; simpl.
    { rewrite app_nil_r. eauto. }
    destruct (bool_decide (entry_name (entry_at disk i) = tname)); simpl;
      [| rewrite app_nil_r; eauto].
    destruct (bool_decide (entry_ext (entry_at disk i) = text)); simpl;
      [| rewrite app_nil_r; eauto].
    pose proof (index_entry_byte _ 12 Hlen ltac:(lia)) as H12.
    pose proof (index_entry_byte _ 14 Hlen ltac:(lia)) as H14.
    pose proof (index_entry_byte _ 15 Hlen ltac:(lia)) as H15.
    change (Z.of_nat 12) with 12 in H12. change (Z.of_nat 14) with 14 in H14.
    change (Z.of_nat 15) with 15 in H15.
    rewrite H12, bind_Ok, H14, bind_Ok, H15, bind_Ok.
    rewrite (entry_blocks_eq _ Hlen), bind_Ok. eauto.
  - subst acc. by rewrite take_ge by done.
Qed.
